(** * telebot: update polling, filtering and allowed-updates serialization

    A shallow embedding of [poller.go] and [message_reaction.go].

    - Go [int] is the 64-bit two's complement integer, kept as a [Z] with its
      wrap-around written out ([GoInt]).
    - Go strings are byte sequences: [string] (a list of 8-bit [ascii]).
    - [LongPoller.Poll] is sequential code that talks to its environment
      (the stop channel, [getUpdates], the debug hook, the atomically read
      hand-off flag, two channels): it is a function that threads the
      poller through the loop and returns the chronological list of
      events, with the environment given as oracles.
    - [MiddlewarePoller.Poll] runs two goroutines that talk over channels:
      it is a labelled step relation over the program points of both
      goroutines and the contents of the three channels it allocates. *)

From Stdlib Require Import ZArith List Bool Lia Sorted.
From Stdlib Require Import Ascii String.
Import ListNotations.

Set Implicit Arguments.

Local Open Scope Z_scope.

(** ** Go's [int] *)

Module GoInt.

Definition min_int : Z := - 2 ^ 63.
Definition max_int : Z := 2 ^ 63 - 1.

Definition in_range (z : Z) : Prop := min_int <= z <= max_int.

(** Signed overflow wraps around in Go. *)
Definition wrap (z : Z) : Z := (z + 2 ^ 63) mod 2 ^ 64 - 2 ^ 63.

Definition add (x y : Z) : Z := wrap (x + y).

End GoInt.

(** ** Updates

    Modelled from the spec: the [Update] struct is declared outside
    [poller.go]; the spec gives it as [{ id: integer, payload: opaque }].
    The pollers read the [ID] field only. *)

Record Update : Type := mkUpdate {
  ID : Z;
  Payload : string
}.

(** Go's [error] values, as their message. *)
Definition error : Type := string.

(** ** message_reaction.go *)

Record ReactionType : Type := mkReactionType {
  Type_ : string;
  Emoji : string;
  CustomEmojiID : string
}.

Definition New (emoji : string) : ReactionType :=
  {| Type_ := EmptyString; Emoji := emoji; CustomEmojiID := EmptyString |}.

(** ** encoding/json on a slice of strings

    [json.Marshal] belongs to Go's standard library.  On a [[]string] it
    writes [null] for a nil slice and otherwise the elements between
    brackets, separated by commas, each through [appendString] with HTML
    escaping on (Go 1.22 and later: backspace and form feed have short
    escapes). *)

Module Json.

Local Open Scope string_scope.
Local Open Scope N_scope.

Definition backslash : ascii := "\"%char.
Definition dquote : ascii := "034"%char.

Definition hex (n : N) : ascii :=
  match String.get (N.to_nat n) "0123456789abcdef" with
  | Some c => c
  | None => "0"%char
  end.

(** [htmlSafeSet]: the ASCII bytes copied as they are. *)
Definition htmlSafe (n : N) : bool :=
  (32 <=? n) && (n <? 128) &&
  negb ((n =? 34) || (n =? 38) || (n =? 60) || (n =? 62) || (n =? 92)).

(** The [switch] on an ASCII byte that is not in [htmlSafeSet]. *)
Definition escapeByte (b : ascii) : string :=
  let n := N_of_ascii b in
  if (n =? 92) || (n =? 34) then String backslash (String b EmptyString)
  else if n =? 8 then String backslash "b"
  else if n =? 12 then String backslash "f"
  else if n =? 10 then String backslash "n"
  else if n =? 13 then String backslash "r"
  else if n =? 9 then String backslash "t"
  else String backslash
         ("u00" ++ String (hex (n / 16)) (String (hex (n mod 16)) EmptyString)).

(** Do the bytes at the head of [s] fall in the given ranges, one range
    per byte? *)
Fixpoint accept (ranges : list (N * N)) (s : string) : bool :=
  match ranges with
  | [] => true
  | (lo, hi) :: ranges' =>
      match s with
      | EmptyString => false
      | String c s' =>
          (lo <=? N_of_ascii c) && (N_of_ascii c <=? hi) && accept ranges' s'
      end
  end.

(** The continuation bytes a leading byte asks for
    ([utf8.DecodeRuneInString]); [None] for a byte that starts no rune. *)
Definition continuation (lead : N) : option (list (N * N)) :=
  if lead <? 194 then None
  else if lead <? 224 then Some [(128, 191)]
  else if lead =? 224 then Some [(160, 191); (128, 191)]
  else if lead =? 237 then Some [(128, 159); (128, 191)]
  else if lead <? 240 then Some [(128, 191); (128, 191)]
  else if lead =? 240 then Some [(144, 191); (128, 191); (128, 191)]
  else if lead <? 244 then Some [(128, 191); (128, 191); (128, 191)]
  else if lead =? 244 then Some [(128, 143); (128, 191); (128, 191)]
  else None.

(** Size in bytes of the rune at the head of [lead :: rest], for a
    [lead] of 128 or more; [None] is [(RuneError, 1)]. *)
Definition runeSize (lead : N) (rest : string) : option nat :=
  match continuation lead with
  | Some ranges => if accept ranges rest then Some (S (List.length ranges)) else None
  | None => None
  end.

(** U+2028 and U+2029 are the byte sequences E2 80 A8 and E2 80 A9. *)
Definition lineSeparator (lead : N) (rest : string) : option ascii :=
  match rest with
  | String c1 (String c2 _) =>
      if (lead =? 226) && (N_of_ascii c1 =? 128)
      then if N_of_ascii c2 =? 168 then Some "8"%char
           else if N_of_ascii c2 =? 169 then Some "9"%char
           else None
      else None
  | _ => None
  end.

Fixpoint drop (n : nat) (s : string) : string :=
  match n, s with
  | O, _ => s
  | S n', String _ s' => drop n' s'
  | S _, EmptyString => EmptyString
  end.

Fixpoint take (n : nat) (s : string) : string :=
  match n, s with
  | S n', String c s' => String c (take n' s')
  | _, _ => EmptyString
  end.

(** The loop of [appendString] over the bytes that remain; every turn
    consumes at least one byte, so [fuel] set to the length suffices. *)
Fixpoint appendBody (fuel : nat) (src : string) : string :=
  match fuel, src with
  | S fuel', String b rest =>
      let n := N_of_ascii b in
      if n <? 128 then
        (if htmlSafe n then String b EmptyString else escapeByte b)
          ++ appendBody fuel' rest
      else
        match runeSize n rest with
        | None => String backslash "ufffd" ++ appendBody fuel' rest
        | Some size =>
            match lineSeparator n rest with
            | Some d =>
                String backslash ("u202" ++ String d EmptyString)
                  ++ appendBody fuel' (drop size src)
            | None => take size src ++ appendBody fuel' (drop size src)
            end
        end
  | _, _ => EmptyString
  end.

Definition appendString (src : string) : string :=
  String dquote (appendBody (String.length src) src ++ String dquote EmptyString).

Fixpoint elements (l : list string) : string :=
  match l with
  | [] => EmptyString
  | [s] => appendString s
  | s :: l' => appendString s ++ "," ++ elements l'
  end.

(** [json.Marshal] on a [[]string]; [None] is the nil slice.  It cannot
    fail on this type, which is why [String] drops the error. *)
Definition Marshal (v : option (list string)) : string :=
  match v with
  | None => "null"
  | Some l => "[" ++ elements l ++ "]"
  end.

End Json.

(** [bytes.ReplaceAll(b, old, []byte(""))] for a one-byte [old]. *)
Fixpoint removeByte (old : ascii) (b : string) : string :=
  match b with
  | EmptyString => EmptyString
  | String c b' =>
      if Ascii.eqb c old then removeByte old b' else String c (removeByte old b')
  end.

(** ** AllowedUpdates

    [type AllowedUpdates []string]: a slice, which is nil ([None]) or
    holds a sequence of strings. *)

Module AllowedUpdates.

Definition t : Type := option (list string).

(** [append(u, updates...)]: appending nothing to the nil slice gives
    the nil slice back. *)
Definition Add (u : t) (updates : list string) : t :=
  match u, updates with
  | None, [] => None
  | None, _ => Some updates
  | Some l, _ => Some (l ++ updates)
  end.

Definition String (u : t) : string :=
  let b := Json.Marshal u in
  let b := removeByte Json.backslash b in
  b.

End AllowedUpdates.

Definition DefaultAllowedUpdates : AllowedUpdates.t :=
  Some [ "edited_message";
         "channel_post";
         "edited_channel_post";
         "inline_query";
         "chosen_inline_result";
         "callback_query";
         "shipping_query";
         "pre_checkout_query";
         "poll";
         "poll_answer" ]%string.

(** ** The environment of a poller

    Modelled from the spec: [Bot] is declared outside [poller.go].  The
    pollers use its fetch call [getUpdates], its diagnostic hook [debug],
    the hand-off flag [shouldWrireNextUpdate] (an [int64] read with
    [atomic.LoadInt64]) and the hand-off channel [nextUpdate].

    The collaborators are oracles: [getUpdates b k] answers the [k]-th
    fetch call of a run, given its arguments; [shouldWrireNextUpdate b k]
    is the value the [k]-th atomic load of a run reads.  The hook and the
    channels appear as events. *)

Record Bot : Type := mkBot {
  getUpdates : nat -> Z -> Z -> Z -> string -> error + list Update;
  shouldWrireNextUpdate : nat -> Z
}.

(** What a run of [LongPoller.Poll] does to its environment, in order. *)
Inductive event : Type :=
| GetUpdates (offset limit timeout : Z) (allowed : string)
             (result : error + list Update)
| Debug (err : error)
| SendNextUpdate (update : Update)   (* b.nextUpdate <- update *)
| SendDest (update : Update)         (* dest <- update *)
| RecvStop.                          (* case <-stop *)

(** ** LongPoller *)

Module LongPoller.

Record t : Type := mk {
  Limit : Z;
  Timeout : Z;        (* time.Duration, an int64 of nanoseconds *)
  LastUpdateID : Z;
  AllowedUpdates : string
}.

Definition set_LastUpdateID (id : Z) (p : t) : t :=
  {| Limit := Limit p; Timeout := Timeout p;
     LastUpdateID := id; AllowedUpdates := AllowedUpdates p |}.

(** [for _, update := range updates { ... }]; [loads] counts the atomic
    loads of the flag made so far.  A send is taken to be accepted by its
    receiver. *)
Fixpoint dispatch (b : Bot) (loads : nat) (updates : list Update) (p : t)
  : t * list event :=
  match updates with
  | [] => (p, [])
  | update :: updates' =>
      let p := set_LastUpdateID (ID update) p in
      let e := if shouldWrireNextUpdate b loads =? 1
               then SendNextUpdate update
               else SendDest update in
      let '(p, es) := dispatch b (S loads) updates' p in
      (p, e :: es)
  end.

(** [Returned]: [Poll] has returned.  [Polling]: the loop has gone through
    all the iterations it was observed for and is still running. *)
Inductive status : Type := Returned | Polling.

(** [Poll] observed for [fuel] iterations of its [for] loop.  [stop k]
    tells whether the receive from [stop] is ready at iteration [k];
    [k] is the number of iterations made so far, which is also the number
    of fetch calls. *)
Fixpoint Poll (fuel : nat) (b : Bot) (stop : nat -> bool)
              (k loads : nat) (p : t) : t * list event * status :=
  match fuel with
  | O => (p, [], Polling)
  | S fuel' =>
      if stop k then (p, [RecvStop], Returned)
      else
        let offset := GoInt.add (LastUpdateID p) 1 in
        let result := getUpdates b k offset (Limit p) (Timeout p) (AllowedUpdates p) in
        match result with
        | inl err =>
            let '(p', es, st) := Poll fuel' b stop (S k) loads p in
            (p', GetUpdates offset (Limit p) (Timeout p) (AllowedUpdates p) result
                   :: Debug err :: es, st)
        | inr updates =>
            let '(p1, sent) := dispatch b loads updates p in
            let '(p', es, st) :=
              Poll fuel' b stop (S k) (loads + List.length updates) p1 in
            (p', GetUpdates offset (Limit p) (Timeout p) (AllowedUpdates p) result
                   :: sent ++ es, st)
        end
  end.

End LongPoller.

(** *** Reading a trace *)

(** The updates written to either channel, in order. *)
Fixpoint combined (es : list event) : list Update :=
  match es with
  | [] => []
  | SendNextUpdate u :: es' => u :: combined es'
  | SendDest u :: es' => u :: combined es'
  | _ :: es' => combined es'
  end.

(** The updates written to the hand-off channel. *)
Fixpoint handed_off (es : list event) : list Update :=
  match es with
  | [] => []
  | SendNextUpdate u :: es' => u :: handed_off es'
  | _ :: es' => handed_off es'
  end.

(** The updates written to the normal output channel. *)
Fixpoint output (es : list event) : list Update :=
  match es with
  | [] => []
  | SendDest u :: es' => u :: output es'
  | _ :: es' => output es'
  end.

(** The batches the successful fetch calls returned. *)
Fixpoint fetched (es : list event) : list (list Update) :=
  match es with
  | [] => []
  | GetUpdates _ _ _ _ (inr us) :: es' => us :: fetched es'
  | _ :: es' => fetched es'
  end.

(** The offsets requested, one per fetch call. *)
Fixpoint offsets (es : list event) : list Z :=
  match es with
  | [] => []
  | GetUpdates off _ _ _ _ :: es' => off :: offsets es'
  | _ :: es' => offsets es'
  end.

(** *** Reading the result of a run *)

Definition poller_of (r : LongPoller.t * list event * LongPoller.status) :=
  fst (fst r).
Definition events_of (r : LongPoller.t * list event * LongPoller.status) :=
  snd (fst r).
Definition status_of (r : LongPoller.t * list event * LongPoller.status) :=
  snd r.

(** The event of the fetch call an iteration makes. *)
Definition fetch_event (b : Bot) (k : nat) (p : LongPoller.t) : event :=
  let offset := GoInt.add (LongPoller.LastUpdateID p) 1 in
  GetUpdates offset (LongPoller.Limit p) (LongPoller.Timeout p)
             (LongPoller.AllowedUpdates p)
             (getUpdates b k offset (LongPoller.Limit p) (LongPoller.Timeout p)
                         (LongPoller.AllowedUpdates p)).

Definition fetch_result (b : Bot) (k : nat) (p : LongPoller.t)
  : error + list Update :=
  getUpdates b k (GoInt.add (LongPoller.LastUpdateID p) 1) (LongPoller.Limit p)
             (LongPoller.Timeout p) (LongPoller.AllowedUpdates p).

(** The event that writes [update] when the flag reads [flag]. *)
Definition write_event (flag : Z) (update : Update) : event :=
  if flag =? 1 then SendNextUpdate update else SendDest update.

(** *** What is asked of a Source

    [offset] names the smallest id the fetch may return. *)
Definition honours_offset (b : Bot) : Prop :=
  forall k offset limit timeout allowed updates,
    getUpdates b k offset limit timeout allowed = inr updates ->
    Forall (fun u => offset <= ID u) updates.


(** The ids are [int]s, and none is the largest [int]. *)
Definition ids_below_max (b : Bot) : Prop :=
  forall k offset limit timeout allowed updates,
    getUpdates b k offset limit timeout allowed = inr updates ->
    Forall (fun u => GoInt.min_int <= ID u < GoInt.max_int) updates.

(** *** Sources, stop signals and pollers to run *)

Definition update_of (id : Z) : Update := mkUpdate id EmptyString.

(** A source that honours the offset, answers its first call with the
    ids 7 and 5, in this order, and its second call with the id 6; the
    flag stays down. *)
Definition unordered_source : Bot :=
  mkBot (fun k offset _ _ _ =>
           if Nat.eqb k 0 && (offset <=? 5)
           then inr [update_of 7; update_of 5]
           else if Nat.eqb k 1 && (offset <=? 6)
                then inr [update_of 6]
                else inr [])
        (fun _ => 0).

(** A source that answers with the two ids from the offset on; the flag
    is up at the second load and down otherwise. *)
Definition orderly_source : Bot :=
  mkBot (fun _ offset _ _ _ =>
           if (GoInt.min_int <=? offset) && (offset <? GoInt.max_int - 1)
           then inr [update_of offset; update_of (offset + 1)] else inr [])
        (fun k => if Nat.eqb k 1 then 1 else 0).

(** A source whose every call fails. *)
Definition failing_source : Bot :=
  mkBot (fun _ _ _ _ _ => inl "timeout"%string) (fun _ => 0).

Definition never_stop : nat -> bool := fun _ => false.

Definition stop_from (n : nat) : nat -> bool := fun k => Nat.leb n k.

Definition fresh_poller : LongPoller.t := LongPoller.mk 100 10 0 EmptyString.

(** ** The Poller interface

    [Poll(b, updates, stop)] runs until it returns.  From outside, a
    poller is seen to send on [updates], to receive from [stop], and to
    return; the rest of what it does is internal.  An implementation is a
    transition system over these actions.  Whether a send or a receive
    can go through is up to whoever owns the channel. *)

Module Poller.

Inductive action : Type :=
| Emit (upd : Update)     (* updates <- upd *)
| Stopped                 (* <-stop *)
| Internal
| Return.

Record t : Type := mk {
  state : Type;
  start : state;
  step : state -> action -> state -> Prop
}.

End Poller.

(** Executions of a transition system, with the labels in order. *)
Section Executions.

Variables (S L : Type).
Variable step : S -> L -> S -> Prop.

Inductive steps (s0 : S) : list L -> S -> Prop :=
| steps_nil : steps s0 [] s0
| steps_snoc tr s l s' :
    steps s0 tr s -> step s l s' -> steps s0 (tr ++ [l]) s'.

(** Every [b] in the trace comes after some [a]. *)
Definition precedes (a b : L) (tr : list L) : Prop :=
  forall t1 t2, tr = t1 ++ b :: t2 -> In a t1.

End Executions.

(** The updates a poller sent on its output channel. *)
Fixpoint emits (tr : list Poller.action) : list Update :=
  match tr with
  | [] => []
  | Poller.Emit upd :: tr' => upd :: emits tr'
  | _ :: tr' => emits tr'
  end.

Definition traces (P : Poller.t) (tr : list Poller.action) : Prop :=
  exists s, steps (Poller.step P) (Poller.start P) tr s.

(** ** MiddlewarePoller *)

Module MiddlewarePoller.

(** [Filter] takes a pointer to an [Update] and may write through it: it
    is given as the verdict together with the value it leaves behind. *)
Record t : Type := mk {
  Capacity : Z;
  Poller : Poller.t;
  Filter : Update -> bool * Update
}.

Definition NewMiddlewarePoller (original : Poller.t)
                               (filter : Update -> bool * Update) : t :=
  {| Capacity := 0; Poller := original; Filter := filter |}.

(** [if p.Capacity < 1 { p.Capacity = 1 }]: the capacity [middle] is
    made with. *)
Definition relay_capacity (p : t) : Z :=
  if Capacity p <? 1 then 1 else Capacity p.

(** Program points of the goroutine that called [Poll]. *)
Inductive loop_pc : Type :=
| Select                      (* at the select statement *)
| Filtering (upd : Update)    (* upd := <-middle done, at p.Filter(&upd) *)
| Sending (upd : Update)      (* at dest <- upd *)
| ClosingStopPoller           (* <-stop done, at close(stopPoller) *)
| AwaitingConfirm             (* at <-stopConfirm *)
| Returning                   (* at return *)
| Done.

(** Program points of the goroutine started by the [go] statement. *)
Inductive go_pc : Type :=
| InPoll                      (* inside p.Poller.Poll(b, middle, stopPoller) *)
| ClosingConfirm              (* at close(stopConfirm) *)
| Finished.

Record state (P : Poller.t) : Type := mkState {
  loop : loop_pc;
  goroutine : go_pc;
  inner : Poller.state P;
  middle : list Update;       (* the buffer of the channel, oldest first *)
  stopPoller : bool;          (* closed? *)
  stopConfirm : bool          (* closed? *)
}.

Inductive label : Type :=
| Inner (a : Poller.action)                         (* the wrapped poller *)
| CloseConfirm                                      (* close(stopConfirm) *)
| RecvMiddle (upd : Update)                         (* case upd := <-middle *)
| CallFilter (upd : Update) (ok : bool) (upd' : Update)  (* p.Filter(&upd) *)
| Forward (upd : Update)                            (* dest <- upd *)
| OuterStop                                         (* case <-stop *)
| CloseStopPoller                                   (* close(stopPoller) *)
| RecvConfirm                                       (* <-stopConfirm *)
| Ret.                                              (* return *)

Section Step.

Variable p : t.

Let P := Poller p.

(** The state after the three [make]s and the [go] statement. *)
Definition start : state P :=
  {| loop := Select; goroutine := InPoll; inner := Poller.start P;
     middle := []; stopPoller := false; stopConfirm := false |}.

Definition with_inner (s : state P) (g : go_pc) (i : Poller.state P)
                      (m : list Update) : state P :=
  {| loop := loop s; goroutine := g; inner := i; middle := m;
     stopPoller := stopPoller s; stopConfirm := stopConfirm s |}.

Definition with_loop (s : state P) (pc : loop_pc) (m : list Update)
                     (closed : bool) : state P :=
  {| loop := pc; goroutine := goroutine s; inner := inner s; middle := m;
     stopPoller := closed; stopConfirm := stopConfirm s |}.

(** One step of either goroutine.  [middle] has room for
    [relay_capacity p] updates; a send on it waits for room, a receive
    from it waits for an update; a receive from a channel of [struct{}]
    that nobody sends on waits for its [close]. *)
Inductive step : state P -> label -> state P -> Prop :=
| step_inner_internal s i' :
    goroutine s = InPoll ->
    Poller.step P (inner s) Poller.Internal i' ->
    step s (Inner Poller.Internal) (with_inner s InPoll i' (middle s))
| step_inner_emit s upd i' :
    goroutine s = InPoll ->
    Poller.step P (inner s) (Poller.Emit upd) i' ->
    Z.of_nat (List.length (middle s)) < relay_capacity p ->
    step s (Inner (Poller.Emit upd))
           (with_inner s InPoll i' (middle s ++ [upd]))
| step_inner_stopped s i' :
    goroutine s = InPoll ->
    Poller.step P (inner s) Poller.Stopped i' ->
    stopPoller s = true ->
    step s (Inner Poller.Stopped) (with_inner s InPoll i' (middle s))
| step_inner_return s i' :
    goroutine s = InPoll ->
    Poller.step P (inner s) Poller.Return i' ->
    step s (Inner Poller.Return) (with_inner s ClosingConfirm i' (middle s))
| step_close_confirm s :
    goroutine s = ClosingConfirm ->
    step s CloseConfirm
         {| loop := loop s; goroutine := Finished; inner := inner s;
            middle := middle s; stopPoller := stopPoller s;
            stopConfirm := true |}
| step_recv_middle s upd rest :
    loop s = Select ->
    middle s = upd :: rest ->
    step s (RecvMiddle upd) (with_loop s (Filtering upd) rest (stopPoller s))
| step_call_filter s upd :
    loop s = Filtering upd ->
    step s (CallFilter upd (fst (Filter p upd)) (snd (Filter p upd)))
         (with_loop s (if fst (Filter p upd)
                       then Sending (snd (Filter p upd)) else Select)
                    (middle s) (stopPoller s))
| step_forward s upd :
    loop s = Sending upd ->
    step s (Forward upd) (with_loop s Select (middle s) (stopPoller s))
| step_outer_stop s :
    loop s = Select ->
    step s OuterStop (with_loop s ClosingStopPoller (middle s) (stopPoller s))
| step_close_stop_poller s :
    loop s = ClosingStopPoller ->
    step s CloseStopPoller (with_loop s AwaitingConfirm (middle s) true)
| step_recv_confirm s :
    loop s = AwaitingConfirm ->
    stopConfirm s = true ->
    step s RecvConfirm (with_loop s Returning (middle s) (stopPoller s))
| step_return s :
    loop s = Returning ->
    step s Ret (with_loop s Done (middle s) (stopPoller s)).

End Step.

(** What a caller of [Poll] sees of a step. *)
Definition visible (l : label) : Poller.action :=
  match l with
  | Forward upd => Poller.Emit upd
  | OuterStop => Poller.Stopped
  | Ret => Poller.Return
  | _ => Poller.Internal
  end.

(** [Poll], as an implementation of the Poller interface. *)
Definition Poll (p : t) : Poller.t :=
  {| Poller.state := state (Poller p);
     Poller.start := start p;
     Poller.step := fun s a s' => exists l, step p s l s' /\ visible l = a |}.

End MiddlewarePoller.

(** *** Reading a trace of the middleware *)

Module Trace.

Import MiddlewarePoller.

(** What the wrapped poller sent on [middle]. *)
Fixpoint emitted (tr : list label) : list Update :=
  match tr with
  | [] => []
  | Inner (Poller.Emit upd) :: tr' => upd :: emitted tr'
  | _ :: tr' => emitted tr'
  end.

(** What the loop received from [middle]. *)
Fixpoint relayed (tr : list label) : list Update :=
  match tr with
  | [] => []
  | RecvMiddle upd :: tr' => upd :: relayed tr'
  | _ :: tr' => relayed tr'
  end.

(** The updates the filter was called on. *)
Fixpoint judged (tr : list label) : list Update :=
  match tr with
  | [] => []
  | CallFilter upd _ _ :: tr' => upd :: judged tr'
  | _ :: tr' => judged tr'
  end.

(** What the loop sent on [dest]. *)
Fixpoint forwarded (tr : list label) : list Update :=
  match tr with
  | [] => []
  | Forward upd :: tr' => upd :: forwarded tr'
  | _ :: tr' => forwarded tr'
  end.

(** The steps of the wrapped poller. *)
Fixpoint inner_actions (tr : list label) : list Poller.action :=
  match tr with
  | [] => []
  | Inner a :: tr' => a :: inner_actions tr'
  | _ :: tr' => inner_actions tr'
  end.

End Trace.

(** What a filter lets through of a sequence of updates: the values it
    leaves behind where its verdict is [true]. *)
Fixpoint sieve (filter : Update -> bool * Update) (l : list Update)
  : list Update :=
  match l with
  | [] => []
  | upd :: l' =>
      if fst (filter upd) then snd (filter upd) :: sieve filter l'
      else sieve filter l'
  end.

(** The update the loop of the middleware holds, if any. *)
Definition held_unjudged (pc : MiddlewarePoller.loop_pc) : list Update :=
  match pc with
  | MiddlewarePoller.Filtering upd => [upd]
  | _ => []
  end.

Definition held_accepted (pc : MiddlewarePoller.loop_pc) : list Update :=
  match pc with
  | MiddlewarePoller.Sending upd => [upd]
  | _ => []
  end.

(** A pile of middlewares over a poller, the outermost first. *)
Fixpoint nest (layers : list (Z * (Update -> bool * Update)))
              (P : Poller.t) : Poller.t :=
  match layers with
  | [] => P
  | (capacity, filter) :: layers' =>
      MiddlewarePoller.Poll
        (MiddlewarePoller.mk capacity (nest layers' P) filter)
  end.
(** *** A poller to wrap

    It sends the updates of a list one after the other, may see the
    stop signal at any point, and returns once it has seen it. *)

Inductive script_state : Type :=
| Playing (rest : list Update)
| Seen
| Gone.

Inductive script_step : script_state -> Poller.action -> script_state -> Prop :=
| script_play upd rest :
    script_step (Playing (upd :: rest)) (Poller.Emit upd) (Playing rest)
| script_see rest :
    script_step (Playing rest) Poller.Stopped Seen
| script_leave :
    script_step Seen Poller.Return Gone.

Definition scripted (l : list Update) : Poller.t :=
  {| Poller.state := script_state;
     Poller.start := Playing l;
     Poller.step := script_step |}.

(** Filters: one that accepts and leaves the update alone, one that
    rejects, one that accepts after writing 0 to the id. *)
Definition accept_all (upd : Update) : bool * Update := (true, upd).

Definition reject_all (upd : Update) : bool * Update := (false, upd).

Definition accept_rewritten (upd : Update) : bool * Update :=
  (true, mkUpdate 0 (Payload upd)).

(** A filter that accepts every update and leaves it as it was. *)
Definition transparent (filter : Update -> bool * Update) : Prop :=
  forall upd, filter upd = (true, upd).

(** The poller was neither told to stop nor has it returned. *)
Definition undisturbed (tr : list Poller.action) : Prop :=
  ~ In Poller.Stopped tr /\ ~ In Poller.Return tr.

(** Middlewares over the scripted poller, and a run of the first one
    that relays one update and is then stopped. *)
Definition relay_one : MiddlewarePoller.t :=
  MiddlewarePoller.NewMiddlewarePoller (scripted [update_of 1]) accept_all.

Definition drop_one : MiddlewarePoller.t :=
  MiddlewarePoller.NewMiddlewarePoller (scripted [update_of 1]) reject_all.

Definition rewrite_one : MiddlewarePoller.t :=
  MiddlewarePoller.NewMiddlewarePoller (scripted [update_of 1]) accept_rewritten.

Definition relay_and_stop : list MiddlewarePoller.label :=
  [ MiddlewarePoller.Inner (Poller.Emit (update_of 1));
    MiddlewarePoller.RecvMiddle (update_of 1);
    MiddlewarePoller.CallFilter (update_of 1) true (update_of 1);
    MiddlewarePoller.Forward (update_of 1);
    MiddlewarePoller.OuterStop;
    MiddlewarePoller.CloseStopPoller;
    MiddlewarePoller.Inner Poller.Stopped;
    MiddlewarePoller.Inner Poller.Return;
    MiddlewarePoller.CloseConfirm;
    MiddlewarePoller.RecvConfirm;
    MiddlewarePoller.Ret ].

Definition stopped_state : MiddlewarePoller.state (scripted [update_of 1]) :=
  MiddlewarePoller.mkState (scripted [update_of 1]) MiddlewarePoller.Done
    MiddlewarePoller.Finished Gone [] true true.

(** The wrapped poller has sent its update, the loop has taken it and
    the filter has given its verdict [ok], leaving [upd'] behind. *)
Definition taken_and_judged (ok : bool) (upd' : Update)
  : list MiddlewarePoller.label :=
  [ MiddlewarePoller.Inner (Poller.Emit (update_of 1));
    MiddlewarePoller.RecvMiddle (update_of 1);
    MiddlewarePoller.CallFilter (update_of 1) ok upd' ].

Definition judged_state (pc : MiddlewarePoller.loop_pc)
  : MiddlewarePoller.state (scripted [update_of 1]) :=
  MiddlewarePoller.mkState (scripted [update_of 1]) pc
    MiddlewarePoller.InPoll (Playing []) [] false false.

(** ** Texts and inputs used in the statements *)

(** A text written with an apostrophe where it has a double quote. *)
Fixpoint quoted (s : string) : string :=
  match s with
  | EmptyString => EmptyString
  | String c s' =>
      String (if Ascii.eqb c "'"%char then Json.dquote else c) (quoted s')
  end.

Definition in_quotes (s : string) : string :=
  String Json.dquote (s ++ String Json.dquote EmptyString).

Fixpoint comma_separated (l : list string) : string :=
  match l with
  | [] => EmptyString
  | [s] => s
  | s :: l' => s ++ "," ++ comma_separated l'
  end.

(** A name that [appendString] copies byte for byte. *)
Fixpoint plain (s : string) : bool :=
  match s with
  | EmptyString => true
  | String c s' => Json.htmlSafe (N_of_ascii c) && plain s'
  end.

(** ** Further readings of the code *)

(** The names a collection holds; the nil slice holds none. *)
Definition names_of (u : AllowedUpdates.t) : list string :=
  match u with
  | None => []
  | Some l => l
  end.

(** A byte that [appendString] copies, or a double quote, or a
    backslash. *)
Definition literal_byte (c : ascii) : bool :=
  Json.htmlSafe (N_of_ascii c)
  || (N_of_ascii c =? 34)%N || (N_of_ascii c =? 92)%N.

Fixpoint literal (s : string) : bool :=
  match s with
  | EmptyString => true
  | String c s' => literal_byte c && literal s'
  end.

(** Every batch comes in increasing order of id. *)
Definition batches_increasing (b : Bot) : Prop :=
  forall k offset limit timeout allowed updates,
    getUpdates b k offset limit timeout allowed = inr updates ->
    StronglySorted Z.lt (map ID updates).

(** The fetch events of a run carry the settings of the poller [p]. *)
Definition fetch_with_settings (p : LongPoller.t) (e : event) : Prop :=
  match e with
  | GetUpdates _ limit timeout allowed _ =>
      limit = LongPoller.Limit p
      /\ timeout = LongPoller.Timeout p
      /\ allowed = LongPoller.AllowedUpdates p
  | _ => True
  end.

(** The loop of the middleware has left its select for good. *)
Definition stopping (pc : MiddlewarePoller.loop_pc) : Prop :=
  pc = MiddlewarePoller.ClosingStopPoller
  \/ pc = MiddlewarePoller.AwaitingConfirm
  \/ pc = MiddlewarePoller.Returning
  \/ pc = MiddlewarePoller.Done.

(** How far each goroutine of the middleware has come. *)
Definition loop_stage (pc : MiddlewarePoller.loop_pc) : nat :=
  match pc with
  | MiddlewarePoller.Select
  | MiddlewarePoller.Filtering _
  | MiddlewarePoller.Sending _ => 0
  | MiddlewarePoller.ClosingStopPoller => 1
  | MiddlewarePoller.AwaitingConfirm => 2
  | MiddlewarePoller.Returning => 3
  | MiddlewarePoller.Done => 4
  end.

Definition go_stage (pc : MiddlewarePoller.go_pc) : nat :=
  match pc with
  | MiddlewarePoller.InPoll => 0
  | MiddlewarePoller.ClosingConfirm => 1
  | MiddlewarePoller.Finished => 2
  end.

(** The steps a run makes once only: the receive from [stop], the two
    closes, the return of the wrapped [Poll] and the return of [Poll]. *)
Definition once_only (l : MiddlewarePoller.label) : Prop :=
  l = MiddlewarePoller.OuterStop
  \/ l = MiddlewarePoller.CloseStopPoller
  \/ l = MiddlewarePoller.CloseConfirm
  \/ l = MiddlewarePoller.Inner Poller.Return
  \/ l = MiddlewarePoller.Ret.

(** A poller that sends all the updates of a list before it looks at
    the stop signal, the way a long poller does within a batch. *)
Inductive batch_step : script_state -> Poller.action -> script_state -> Prop :=
| batch_play upd rest :
    batch_step (Playing (upd :: rest)) (Poller.Emit upd) (Playing rest)
| batch_see :
    batch_step (Playing []) Poller.Stopped Seen
| batch_leave :
    batch_step Seen Poller.Return Gone.

Definition batching (l : list Update) : Poller.t :=
  {| Poller.state := script_state;
     Poller.start := Playing l;
     Poller.step := batch_step |}.

(** A middleware with the default capacity over a batch of two, and its
    run up to the moment it waits for the wrapped poller to confirm. *)
Definition relay_batch : MiddlewarePoller.t :=
  MiddlewarePoller.NewMiddlewarePoller
    (batching [update_of 1; update_of 2]) accept_all.

Definition stop_mid_batch : list MiddlewarePoller.label :=
  [ MiddlewarePoller.Inner (Poller.Emit (update_of 1));
    MiddlewarePoller.OuterStop;
    MiddlewarePoller.CloseStopPoller ].

Definition hung_state
  : MiddlewarePoller.state (batching [update_of 1; update_of 2]) :=
  MiddlewarePoller.mkState (batching [update_of 1; update_of 2])
    MiddlewarePoller.AwaitingConfirm MiddlewarePoller.InPoll
    (Playing [update_of 2]) [update_of 1] true false.

(** A source that answers every call with the id of the offset; the
    flag reads 2 at every load. *)
Definition steady_source : Bot :=
  mkBot (fun _ offset _ _ _ =>
           if (GoInt.min_int <=? offset) && (offset <? GoInt.max_int)
           then inr [update_of offset] else inr [])
        (fun _ => 2).

(** A source that fails at every other call. *)
Definition flaky_source : Bot :=
  mkBot (fun k offset _ _ _ =>
           if Nat.even k then inl "timeout"%string else inr [update_of offset])
        (fun _ => 1).

(** * Theorems *)

(** ** message_reaction.go *)

(** C10: for every string [emoji], [New emoji] has [emoji] in its Emoji
    field and the empty string in its Type and CustomEmojiID fields. *)
Theorem New_sets_only_Emoji :
  forall emoji : string,
    Emoji (New emoji) = emoji
    /\ Type_ (New emoji) = EmptyString
    /\ CustomEmojiID (New emoji) = EmptyString.
Proof.
  intros emoji. unfold New. cbn. repeat split.
Qed.

(** ** AllowedUpdates *)

Section Serialization.

Local Open Scope string_scope.

Lemma string_app_assoc (a b c : string) : (a ++ b) ++ c = a ++ (b ++ c).
Proof.
  induction a as [|x a IH]; cbn; [reflexivity | now rewrite IH].
Qed.

Lemma string_app_empty_r (a : string) : a ++ "" = a.
Proof.
  induction a as [|x a IH]; cbn; [reflexivity | now rewrite IH].
Qed.

Lemma removeByte_app old (a b : string) :
  removeByte old (a ++ b) = removeByte old a ++ removeByte old b.
Proof.
  induction a as [|x a IH]; cbn; [reflexivity|].
  destruct (Ascii.eqb x old); cbn; now rewrite IH.
Qed.

Lemma removeByte_absent old (b : string) :
  ~ In old (list_ascii_of_string (removeByte old b)).
Proof.
  induction b as [|x b IH]; cbn; [tauto|].
  destruct (Ascii.eqb x old) eqn:E; [exact IH|].
  cbn. intros [H | H]; [|now apply IH].
  subst x. now rewrite Ascii.eqb_refl in E.
Qed.

Lemma removeByte_elements (l : list string) :
  removeByte Json.backslash (Json.elements l)
  = comma_separated
      (map (fun s => removeByte Json.backslash (Json.appendString s)) l).
Proof.
  induction l as [|s l IH]; [reflexivity|].
  destruct l as [|s' l]; [reflexivity|].
  change (Json.elements (s :: s' :: l))
    with (Json.appendString s ++ "," ++ Json.elements (s' :: l)).
  rewrite !removeByte_app, IH. reflexivity.
Qed.

Lemma htmlSafe_not_backslash c :
  Json.htmlSafe (N_of_ascii c) = true -> Ascii.eqb c Json.backslash = false.
Proof.
  intros H. destruct (Ascii.eqb c Json.backslash) eqn:E; [|reflexivity].
  apply Ascii.eqb_eq in E. subst c. discriminate H.
Qed.

Lemma htmlSafe_ascii c :
  Json.htmlSafe (N_of_ascii c) = true -> (N_of_ascii c <? 128)%N = true.
Proof.
  unfold Json.htmlSafe. intros H.
  apply andb_prop in H as [H _]. now apply andb_prop in H as [_ H].
Qed.

Lemma appendBody_plain (s : string) :
  plain s = true -> forall fuel, (String.length s <= fuel)%nat ->
  Json.appendBody fuel s = s.
Proof.
  induction s as [|c s IH]; intros Hs fuel Hf.
  - now destruct fuel.
  - cbn in Hs. apply andb_prop in Hs as [Hc Hs].
    destruct fuel as [|fuel]; [cbn in Hf; lia|].
    cbn [Json.appendBody]. cbv zeta.
    rewrite (htmlSafe_ascii _ Hc), Hc. cbn.
    rewrite IH; [reflexivity | assumption | cbn in Hf; lia].
Qed.

Lemma removeByte_plain (s : string) :
  plain s = true -> removeByte Json.backslash s = s.
Proof.
  induction s as [|c s IH]; [reflexivity|]. cbn. intros Hs.
  apply andb_prop in Hs as [Hc Hs].
  now rewrite (htmlSafe_not_backslash _ Hc), IH.
Qed.

(** A name that needs no escape is rendered between double quotes. *)
Lemma String_plain_element (s : string) :
  plain s = true ->
  removeByte Json.backslash (Json.appendString s) = in_quotes s.
Proof.
  intros Hs. unfold Json.appendString, in_quotes.
  rewrite appendBody_plain by (auto with arith).
  cbn. rewrite removeByte_app, removeByte_plain by assumption.
  reflexivity.
Qed.

Lemma Add_non_nil (l updates : list string) :
  AllowedUpdates.Add (Some l) updates = Some (l ++ updates)%list.
Proof. now destruct updates. Qed.

Lemma Add_many (adds : list (list string)) :
  forall l,
    fold_left AllowedUpdates.Add adds (Some l) = Some (l ++ List.concat adds)%list.
Proof.
  induction adds as [|a adds IH]; intros l; cbn [fold_left List.concat].
  - now rewrite app_nil_r.
  - rewrite Add_non_nil, IH, app_assoc. reflexivity.
Qed.

Lemma String_plain_elements (l : list string) :
  forallb plain l = true ->
  map (fun s => removeByte Json.backslash (Json.appendString s)) l
  = map in_quotes l.
Proof.
  induction l as [|s l IH]; [reflexivity|]. intros Hl.
  cbn in Hl. apply andb_prop in Hl as [Hs Hl].
  cbn [map]. now rewrite String_plain_element, IH.
Qed.

Lemma String_elements (l : list string) :
  AllowedUpdates.String (Some l)
  = "[" ++ comma_separated
             (map (fun s => removeByte Json.backslash (Json.appendString s)) l)
        ++ "]".
Proof.
  unfold AllowedUpdates.String. cbn [Json.Marshal].
  rewrite removeByte_app. cbn [removeByte String.append].
  change (Ascii.eqb "["%char Json.backslash) with false. cbv iota.
  rewrite removeByte_app, removeByte_elements. reflexivity.
Qed.

(** The nil slice is rendered as [null]. *)
Lemma String_nil : AllowedUpdates.String None = "null".
Proof. reflexivity. Qed.

End Serialization.

(** C8: [String] renders a collection as a compact JSON array text from
    which every backslash is gone: brackets around the elements, each the
    JSON string of a name without its backslashes, separated by commas and
    in the order of the collection; a name that needs no escape stands
    between double quotes as it is.  A collection grown from the defaults
    by [Add] holds the defaults followed by what was added, and
    [DefaultAllowedUpdates().Add("foo")] is rendered as the ten default
    names and then foo, each between double quotes. *)
Theorem String_array_text_without_backslash :
  (forall u : AllowedUpdates.t,
      ~ In Json.backslash (list_ascii_of_string (AllowedUpdates.String u)))
  /\ (forall l : list string,
        AllowedUpdates.String (Some l)
        = ("[" ++ comma_separated
                    (map (fun s => removeByte Json.backslash (Json.appendString s)) l)
               ++ "]")%string)
  /\ (forall l : list string,
        forallb plain l = true ->
        AllowedUpdates.String (Some l)
        = ("[" ++ comma_separated (map in_quotes l) ++ "]")%string)
  /\ (forall adds : list (list string),
        exists l, DefaultAllowedUpdates = Some l
          /\ fold_left AllowedUpdates.Add adds DefaultAllowedUpdates
              = Some (l ++ List.concat adds))
  /\ AllowedUpdates.String (AllowedUpdates.Add DefaultAllowedUpdates ["foo"%string])
     = quoted ("['edited_message','channel_post','edited_channel_post',"
               ++ "'inline_query','chosen_inline_result','callback_query',"
               ++ "'shipping_query','pre_checkout_query','poll','poll_answer',"
               ++ "'foo']")%string.
Proof.
  split; [|split; [|split; [|split]]].
  - intros u. apply removeByte_absent.
  - intros l. apply String_elements.
  - intros l Hl. now rewrite String_elements, String_plain_elements.
  - intros adds. eexists. split; [reflexivity|]. apply Add_many.
  - vm_compute. reflexivity.
Qed.

Lemma String_array_text_without_backslash_witness :
  forallb plain ["poll"; "foo"]%string = true
  /\ AllowedUpdates.String (Some ["poll"; "foo"]%string)
     = ("[" ++ comma_separated (map in_quotes ["poll"; "foo"]) ++ "]")%string.
Proof.
  split; [reflexivity|].
  exact (proj1 (proj2 (proj2 String_array_text_without_backslash))
           ["poll"; "foo"]%string eq_refl).
Defined.

(** ** LongPoller *)

Lemma GoInt_add_1 (x : Z) :
  GoInt.min_int <= x < GoInt.max_int -> GoInt.add x 1 = x + 1.
Proof.
  unfold GoInt.add, GoInt.wrap, GoInt.min_int, GoInt.max_int.
  change (2 ^ 63) with 9223372036854775808.
  change (2 ^ 64) with 18446744073709551616.
  intros H. rewrite Z.mod_small; lia.
Qed.

Section LongPollerFacts.

Import LongPoller.

Variable b : Bot.

Lemma dispatch_events :
  forall updates loads p,
    snd (dispatch b loads updates p)
    = map (fun iu => write_event (shouldWrireNextUpdate b (fst iu)) (snd iu))
          (combine (seq loads (List.length updates)) updates).
Proof.
  induction updates as [|update updates IH]; intros loads p; [reflexivity|].
  cbn [dispatch]. cbv zeta.
  specialize (IH (S loads) (set_LastUpdateID (ID update) p)).
  destruct (dispatch b (S loads) updates _) as [p' es].
  cbn [snd] in *. rewrite IH. reflexivity.
Qed.

Lemma last_cons (A : Type) (l : list A) :
  forall x d, last (x :: l) d = last l x.
Proof.
  induction l as [|y l IH]; intros x d; [reflexivity|].
  change (last (x :: y :: l) d) with (last (y :: l) d).
  now rewrite !IH.
Qed.

Lemma dispatch_poller :
  forall updates loads p,
    fst (dispatch b loads updates p)
    = set_LastUpdateID (last (map ID updates) (LastUpdateID p)) p.
Proof.
  induction updates as [|update updates IH]; intros loads p.
  - now destruct p.
  - cbn [dispatch]. cbv zeta.
    specialize (IH (S loads) (set_LastUpdateID (ID update) p)).
    destruct (dispatch b (S loads) updates _) as [p' es].
    cbn [fst] in *. rewrite IH. cbn [map]. rewrite last_cons.
    reflexivity.
Qed.

Lemma combined_write_events (l : list (nat * Update)) :
  combined
    (map (fun iu => write_event (shouldWrireNextUpdate b (fst iu)) (snd iu)) l)
  = map snd l.
Proof.
  induction l as [|[i x] l IH]; [reflexivity|].
  cbn [map fst snd]. unfold write_event at 1.
  destruct (_ =? 1); cbn [combined]; now rewrite IH.
Qed.

Lemma map_snd_combine_seq (A : Type) (l : list A) :
  forall n, map snd (combine (seq n (List.length l)) l) = l.
Proof.
  induction l as [|x l IH]; intros n; [reflexivity|].
  cbn. now rewrite IH.
Qed.

Lemma dispatch_combined updates loads p :
  combined (snd (dispatch b loads updates p)) = updates.
Proof.
  rewrite dispatch_events, combined_write_events.
  apply map_snd_combine_seq.
Qed.

Lemma dispatch_fetched updates loads p :
  fetched (snd (dispatch b loads updates p)) = [].
Proof.
  rewrite dispatch_events.
  induction (combine (seq loads (List.length updates)) updates)
    as [|[i x] l IH]; [reflexivity|].
  cbn [map fst snd]. unfold write_event at 1.
  destruct (_ =? 1); cbn [fetched]; exact IH.
Qed.

Variable stop : nat -> bool.

Lemma Poll_stop fuel k loads p :
  stop k = true -> Poll (S fuel) b stop k loads p = (p, [RecvStop], Returned).
Proof. intros H. cbn [Poll]. now rewrite H. Qed.

Lemma Poll_error fuel k loads p err :
  stop k = false -> fetch_result b k p = inl err ->
  Poll (S fuel) b stop k loads p
  = let r := Poll fuel b stop (S k) loads p in
    (poller_of r, fetch_event b k p :: Debug err :: events_of r, status_of r).
Proof.
  unfold fetch_result, fetch_event. intros H E. cbn [Poll]. rewrite H.
  cbv zeta. rewrite E.
  now destruct (Poll fuel b stop (S k) loads p) as [[p' es] st].
Qed.

Lemma Poll_batch fuel k loads p updates :
  stop k = false -> fetch_result b k p = inr updates ->
  Poll (S fuel) b stop k loads p
  = let d := dispatch b loads updates p in
    let r := Poll fuel b stop (S k) (loads + List.length updates) (fst d) in
    (poller_of r, fetch_event b k p :: snd d ++ events_of r, status_of r).
Proof.
  unfold fetch_result, fetch_event. intros H E. cbn [Poll]. rewrite H.
  cbv zeta. rewrite E.
  destruct (dispatch b loads updates p) as [p1 sent]. cbn [fst snd].
  now destruct (Poll fuel b stop (S k) _ p1) as [[p' es] st].
Qed.

(** Induction over the iterations of the loop. *)
Lemma Poll_ind (Q : nat -> nat -> t -> t * list event * status -> Prop) :
  (forall k loads p, Q k loads p (p, [], Polling)) ->
  (forall k loads p, stop k = true -> Q k loads p (p, [RecvStop], Returned)) ->
  (forall k loads p err r,
      stop k = false -> fetch_result b k p = inl err ->
      Q (S k) loads p r ->
      Q k loads p
        (poller_of r, fetch_event b k p :: Debug err :: events_of r,
         status_of r)) ->
  (forall k loads p updates r,
      stop k = false -> fetch_result b k p = inr updates ->
      Q (S k) (loads + List.length updates)%nat
        (fst (dispatch b loads updates p)) r ->
      Q k loads p
        (poller_of r,
         fetch_event b k p :: snd (dispatch b loads updates p) ++ events_of r,
         status_of r)) ->
  forall fuel k loads p, Q k loads p (Poll fuel b stop k loads p).
Proof.
  intros Hzero Hstop Herr Hok.
  induction fuel as [|fuel IH]; intros k loads p; [apply Hzero|].
  destruct (stop k) eqn:Es.
  - rewrite Poll_stop by assumption. now apply Hstop.
  - destruct (fetch_result b k p) as [err|updates] eqn:Ef.
    + rewrite (Poll_error _ _ _ Es Ef). now apply Herr.
    + rewrite (Poll_batch _ _ _ Es Ef). now apply Hok.
Qed.

End LongPollerFacts.

Section Ordering.

Lemma last_default_or_In (l : list Z) (d : Z) :
  (l = [] /\ last l d = d) \/ In (last l d) l.
Proof.
  destruct l as [|x l]; [now left|]. right.
  destruct (exists_last (l := x :: l)) as [l' [y E]]; [discriminate|].
  rewrite E, last_last. apply in_or_app. right. now left.
Qed.

Lemma StronglySorted_le_last (l : list Z) (d : Z) :
  StronglySorted Z.le l -> Forall (fun x => x <= last l d) l.
Proof.
  induction 1 as [|x l Hl IH Hx]; [constructor|].
  rewrite last_cons. constructor.
  - destruct (last_default_or_In l x) as [[_ E] | Hin]; [lia|].
    rewrite Forall_forall in Hx. now apply Hx.
  - destruct l as [|y l]; [constructor|].
    rewrite last_cons in *. exact IH.
Qed.


End Ordering.

Section LongPollerOrder.

Import LongPoller.

Variables (b : Bot) (stop : nat -> bool).

Lemma combined_app (es1 es2 : list event) :
  combined (es1 ++ es2) = combined es1 ++ combined es2.
Proof.
  induction es1 as [|e es1 IH]; [reflexivity|].
  destruct e; cbn; now rewrite IH.
Qed.

Lemma fetched_app (es1 es2 : list event) :
  fetched (es1 ++ es2) = fetched es1 ++ fetched es2.
Proof.
  induction es1 as [|e es1 IH]; [reflexivity|].
  destruct e as [? ? ? ? [err|us]| | | |]; cbn; now rewrite IH.
Qed.


(** Where the source honours the offset and no id is the largest
    [int], every update of a run has an id above the [LastUpdateID] the
    run started from, and the run ends at or above it. *)
Lemma Poll_above fuel k loads p :
  honours_offset b -> ids_below_max b ->
  GoInt.min_int <= LastUpdateID p < GoInt.max_int ->
  Forall (fun u => LastUpdateID p < ID u)
         (combined (events_of (Poll fuel b stop k loads p)))
  /\ LastUpdateID p <= LastUpdateID (poller_of (Poll fuel b stop k loads p))
     < GoInt.max_int.
Proof.
  intros Hoff Hmax. revert fuel k loads p.
  apply (Poll_ind b stop
           (fun _ _ p r =>
              GoInt.min_int <= LastUpdateID p < GoInt.max_int ->
              Forall (fun u => LastUpdateID p < ID u) (combined (events_of r))
              /\ LastUpdateID p <= LastUpdateID (poller_of r) < GoInt.max_int)).
  - intros _ _ p Hp. cbn [events_of poller_of fst snd combined].
    split; [apply Forall_nil | lia].
  - intros _ _ p _ Hp. cbn [events_of poller_of fst snd combined].
    split; [apply Forall_nil | lia].
  - intros k loads p err r _ _ IH Hp.
    cbn [events_of poller_of fst snd combined fetch_event]. now apply IH.
  - intros k loads p updates r _ E IH Hp.
    cbn [events_of poller_of fst snd combined fetch_event].
    rewrite combined_app, dispatch_combined.
    rewrite dispatch_poller in IH. cbn [LastUpdateID set_LastUpdateID] in IH.
    unfold fetch_result in E.
    pose proof (Hoff _ _ _ _ _ _ E) as Hge. pose proof (Hmax _ _ _ _ _ _ E) as Hlt.
    rewrite GoInt_add_1 in Hge by exact Hp.
    assert (Hlast : LastUpdateID p <= last (map ID updates) (LastUpdateID p)
                    /\ GoInt.min_int <= last (map ID updates) (LastUpdateID p)
                       < GoInt.max_int).
    { destruct (last_default_or_In (map ID updates) (LastUpdateID p))
        as [[_ ->] | Hin]; [lia|].
      apply in_map_iff in Hin as [x [Ex Hx]]. rewrite <- Ex.
      rewrite Forall_forall in Hge, Hlt.
      specialize (Hge _ Hx). specialize (Hlt _ Hx). cbv beta in *. lia. }
    destruct (IH (proj2 Hlast)) as [IH1 IH2]. split; [|lia].
    apply Forall_app. split.
    + eapply Forall_impl; [|exact Hge]. cbv beta. intros; lia.
    + eapply Forall_impl; [|exact IH1]. cbv beta. intros; lia.
Qed.


End LongPollerOrder.

Lemma dispatch_one_channel_each (b : Bot) :
  forall updates loads p,
    Forall2 (fun e update => e = SendNextUpdate update \/ e = SendDest update)
            (snd (LongPoller.dispatch b loads updates p)) updates.
Proof.
  intros updates loads p. rewrite dispatch_events. revert loads.
  induction updates as [|update updates IH]; intros loads; [constructor|].
  cbn [List.length seq combine map fst snd]. constructor; [|apply IH].
  unfold write_event. destruct (_ =? 1); [now left | now right].
Qed.



Lemma orderly_source_honours_offset : honours_offset orderly_source.
Proof.
  intros k offset limit timeout allowed updates. cbn.
  destruct (_ && _); intros E; injection E as <-; repeat constructor; cbn; lia.
Qed.


Lemma orderly_source_below_max : ids_below_max orderly_source.
Proof.
  intros k offset limit timeout allowed updates. cbn.
  destruct (_ && _) eqn:B; intros E; injection E as <-; [|constructor].
  apply andb_prop in B as [B1 B2].
  apply Z.leb_le in B1. apply Z.ltb_lt in B2.
  repeat constructor; cbn; lia.
Qed.



Lemma fresh_poller_in_range :
  GoInt.min_int <= LongPoller.LastUpdateID fresh_poller < GoInt.max_int.
Proof. cbn. unfold GoInt.min_int, GoInt.max_int. lia. Qed.



Section LongPollerOffsets.

Import LongPoller.

Variables (b : Bot) (stop : nat -> bool).

Lemma last_app_default (A : Type) (l1 l2 : list A) (d : A) :
  last (l1 ++ l2) d = last l2 (last l1 d).
Proof.
  revert d. induction l1 as [|x l1 IH]; intros d; [reflexivity|].
  change ((x :: l1) ++ l2) with (x :: l1 ++ l2).
  now rewrite !last_cons, IH.
Qed.

Lemma app_split_middle (A : Type) (x : A) (l1 l2 a c : list A) :
  l1 ++ x :: l2 = a ++ c ->
  In x a \/ exists l, l1 = a ++ l /\ l ++ x :: l2 = c.
Proof.
  revert l1. induction a as [|y a IH]; intros l1 E.
  - right. exists l1. now split.
  - destruct l1 as [|z l1]; cbn in E; injection E as -> E.
    + left. now left.
    + destruct (IH _ E) as [Hin | [l [-> El]]]; [left; now right|].
      right. exists l. now split.
Qed.

Lemma dispatch_sends_only updates loads p e :
  In e (snd (dispatch b loads updates p)) ->
  exists update, e = SendNextUpdate update \/ e = SendDest update.
Proof.
  pose proof (dispatch_one_channel_each b updates loads p) as H.
  induction H as [|e' u es us Heu _ IH]; cbn; [tauto|].
  intros [-> | Hin]; [now exists u | now apply IH].
Qed.

(** After any number of iterations, [LastUpdateID] is the id of the
    update written last, if any was written. *)
Lemma Poll_last_written fuel k loads p :
  LastUpdateID (poller_of (Poll fuel b stop k loads p))
  = last (map ID (combined (events_of (Poll fuel b stop k loads p))))
         (LastUpdateID p).
Proof.
  revert fuel k loads p.
  apply (Poll_ind b stop
           (fun _ _ p r =>
              LastUpdateID (poller_of r)
              = last (map ID (combined (events_of r))) (LastUpdateID p))).
  - reflexivity.
  - reflexivity.
  - intros k loads p err r _ _ IH. exact IH.
  - intros k loads p updates r _ _ IH.
    cbn [events_of poller_of fst snd combined fetch_event].
    rewrite combined_app, dispatch_combined, map_app, last_app_default.
    rewrite IH, dispatch_poller. reflexivity.
Qed.

(** Every fetch call asks for one more than the id of the update
    written last before it. *)
Lemma Poll_offsets fuel k loads p :
  forall es1 offset limit timeout allowed result es2,
    events_of (Poll fuel b stop k loads p)
    = es1 ++ GetUpdates offset limit timeout allowed result :: es2 ->
    offset = GoInt.add (last (map ID (combined es1)) (LastUpdateID p)) 1.
Proof.
  revert fuel k loads p.
  apply (Poll_ind b stop
           (fun _ _ p r =>
              forall es1 offset limit timeout allowed result es2,
                events_of r
                = es1 ++ GetUpdates offset limit timeout allowed result :: es2 ->
                offset
                = GoInt.add (last (map ID (combined es1)) (LastUpdateID p)) 1)).
  - intros _ _ p es1 ? ? ? ? ? es2 E. now destruct es1.
  - intros _ _ p _ es1 ? ? ? ? ? es2 E.
    destruct es1 as [|e [|e' es1]]; discriminate E.
  - intros k loads p err r _ _ IH es1 offset limit timeout allowed result es2 E.
    cbn [events_of fst snd] in E.
    destruct es1 as [|e es1].
    { unfold fetch_event in E. cbn in E. now injection E as <-. }
    cbn in E. injection E as <- E.
    destruct es1 as [|e es1]; [discriminate E|].
    cbn in E. injection E as <- E.
    cbn [combined fetch_event]. now apply IH in E.
  - intros k loads p updates r _ _ IH
           es1 offset limit timeout allowed result es2 E.
    cbn [events_of fst snd] in E.
    destruct es1 as [|e es1].
    { unfold fetch_event in E. cbn in E. now injection E as <-. }
    cbn in E. injection E as <- E. symmetry in E.
    apply app_split_middle in E as [Hin | [l [-> E]]].
    { apply dispatch_sends_only in Hin as [update [H | H]]; discriminate H. }
    symmetry in E. apply IH in E. cbn [combined fetch_event].
    rewrite combined_app, dispatch_combined, map_app, last_app_default.
    rewrite dispatch_poller in E. exact E.
Qed.

(** A batch from a source that honours the offset takes
    [LastUpdateID] no lower and keeps it below the largest [int]. *)
Lemma dispatch_advances k loads p updates :
  honours_offset b -> ids_below_max b ->
  GoInt.min_int <= LastUpdateID p < GoInt.max_int ->
  fetch_result b k p = inr updates ->
  LastUpdateID p <= LastUpdateID (fst (dispatch b loads updates p))
  /\ GoInt.min_int <= LastUpdateID (fst (dispatch b loads updates p))
     < GoInt.max_int.
Proof.
  intros Hoff Hmax Hp E. unfold fetch_result in E.
  pose proof (Hoff _ _ _ _ _ _ E) as Hge. pose proof (Hmax _ _ _ _ _ _ E) as Hlt.
  rewrite GoInt_add_1 in Hge by exact Hp.
  rewrite dispatch_poller. cbn [LastUpdateID set_LastUpdateID].
  destruct (last_default_or_In (map ID updates) (LastUpdateID p))
    as [[_ ->] | Hin]; [lia|].
  apply in_map_iff in Hin as [x [Ex Hx]]. rewrite <- Ex.
  rewrite Forall_forall in Hge, Hlt.
  specialize (Hge _ Hx). specialize (Hlt _ Hx). cbv beta in *. lia.
Qed.

(** [LastUpdateID] does not go down as the loop goes on. *)
Lemma Poll_LastUpdateID_monotone :
  honours_offset b -> ids_below_max b ->
  forall fuel' fuel k loads p,
    (fuel' <= fuel)%nat ->
    GoInt.min_int <= LastUpdateID p < GoInt.max_int ->
    LastUpdateID (poller_of (Poll fuel' b stop k loads p))
    <= LastUpdateID (poller_of (Poll fuel b stop k loads p)).
Proof.
  intros Hoff Hmax.
  induction fuel' as [|fuel' IH]; intros fuel k loads p Hle Hp.
  - now apply Poll_above.
  - destruct fuel as [|fuel]; [lia|].
    destruct (stop k) eqn:Es.
    { rewrite !Poll_stop by assumption. cbn. lia. }
    destruct (fetch_result b k p) as [err|updates] eqn:Ef.
    { erewrite !Poll_error by eassumption. cbn [poller_of fst].
      apply IH; [lia | exact Hp]. }
    erewrite !Poll_batch by eassumption. cbn [poller_of fst].
    apply IH; [lia|].
    eapply proj2, dispatch_advances; eassumption.
Qed.

End LongPollerOffsets.

(** C2 (amended): when a batch completes, [LastUpdateID] is the id of the
    last update of the batch, which is the largest id of the batch where
    the batch is in non-decreasing order, and an empty batch leaves it as
    it was; every fetch asks for an offset of one more (in [int]
    arithmetic) than the id of the update dispatched last; a failed fetch
    leaves [LastUpdateID] unchanged; and where the source honours the
    offset and never returns the largest [int], and [LastUpdateID] starts
    as an [int] below the largest, [LastUpdateID] does not decrease from
    one iteration of the loop to a later one. *)
Theorem LastUpdateID_follows_last_dispatched :
  forall (b : Bot) (stop : nat -> bool) (fuel k loads : nat) (p : LongPoller.t),
    let r := LongPoller.Poll fuel b stop k loads p in
    (forall updates,
        LongPoller.LastUpdateID (fst (LongPoller.dispatch b loads updates p))
        = last (map ID updates) (LongPoller.LastUpdateID p))
    /\ (forall updates,
          StronglySorted Z.le (map ID updates) ->
          Forall (fun u =>
                    ID u <= LongPoller.LastUpdateID
                              (fst (LongPoller.dispatch b loads updates p)))
                 updates)
    /\ LongPoller.LastUpdateID (poller_of r)
       = last (map ID (combined (events_of r))) (LongPoller.LastUpdateID p)
    /\ (forall es1 offset limit timeout allowed result es2,
          events_of r
          = es1 ++ GetUpdates offset limit timeout allowed result :: es2 ->
          offset = GoInt.add (last (map ID (combined es1))
                                   (LongPoller.LastUpdateID p)) 1)
    /\ (forall err,
          stop k = false -> fetch_result b k p = inl err ->
          LongPoller.Poll 1 b stop k loads p
          = (p, [fetch_event b k p; Debug err], LongPoller.Polling))
    /\ (honours_offset b -> ids_below_max b ->
        GoInt.min_int <= LongPoller.LastUpdateID p < GoInt.max_int ->
        forall fuel', (fuel' <= fuel)%nat ->
          LongPoller.LastUpdateID
            (poller_of (LongPoller.Poll fuel' b stop k loads p))
          <= LongPoller.LastUpdateID (poller_of r)).
Proof.
  intros b stop fuel k loads p r.
  split; [|split; [|split; [|split; [|split]]]].
  - intros updates. now rewrite dispatch_poller.
  - intros updates Hso. rewrite dispatch_poller.
    cbn [LongPoller.LastUpdateID LongPoller.set_LastUpdateID].
    pose proof (StronglySorted_le_last (LongPoller.LastUpdateID p) Hso) as H.
    now rewrite Forall_map in H.
  - apply Poll_last_written.
  - apply Poll_offsets.
  - intros err Es Ef. erewrite Poll_error by eassumption. reflexivity.
  - intros Hoff Hmax Hp fuel' Hle. now apply Poll_LastUpdateID_monotone.
Qed.

Lemma LastUpdateID_follows_last_dispatched_witness :
  (StronglySorted Z.le (map ID [update_of 1; update_of 2])
   /\ Forall (fun u =>
                ID u <= LongPoller.LastUpdateID
                          (fst (LongPoller.dispatch orderly_source 0
                                  [update_of 1; update_of 2] fresh_poller)))
             [update_of 1; update_of 2])
  /\ 3 = GoInt.add (last (map ID (combined
                       [GetUpdates 1 100 10 EmptyString (inr [update_of 1; update_of 2]);
                        SendDest (update_of 1); SendNextUpdate (update_of 2)])) 0) 1
  /\ (never_stop 0%nat = false
      /\ fetch_result failing_source 0 fresh_poller = inl "timeout"%string
      /\ LongPoller.Poll 1 failing_source never_stop 0 0 fresh_poller
         = (fresh_poller,
            [fetch_event failing_source 0 fresh_poller; Debug "timeout"%string],
            LongPoller.Polling))
  /\ LongPoller.LastUpdateID
       (poller_of (LongPoller.Poll 1 orderly_source never_stop 0 0 fresh_poller))
     <= LongPoller.LastUpdateID
          (poller_of (LongPoller.Poll 2 orderly_source never_stop 0 0 fresh_poller)).
Proof.
  pose proof (LastUpdateID_follows_last_dispatched
                orderly_source never_stop 2 0 0 fresh_poller)
    as [_ [Hmax [_ [Hoff [_ Hmono]]]]].
  pose proof (LastUpdateID_follows_last_dispatched
                failing_source never_stop 2 0 0 fresh_poller)
    as [_ [_ [_ [_ [Herr _]]]]].
  assert (Hso : StronglySorted Z.le (map ID [update_of 1; update_of 2])).
  { repeat constructor; cbn; lia. }
  split; [split; [exact Hso | exact (Hmax _ Hso)]|].
  split.
  { apply (Hoff [GetUpdates 1 100 10 EmptyString (inr [update_of 1; update_of 2]);
                 SendDest (update_of 1); SendNextUpdate (update_of 2)]
                3 100 10 EmptyString (inr [update_of 3; update_of 4])
                [SendDest (update_of 3); SendDest (update_of 4)]).
    reflexivity. }
  split.
  { split; [reflexivity|]. split; [reflexivity|].
    apply Herr; reflexivity. }
  apply (Hmono orderly_source_honours_offset orderly_source_below_max
               fresh_poller_in_range 1%nat).
  lia.
Defined.

(** C2 as stated fails: after the batch with the ids 7 and 5, in this
    order, [LastUpdateID] is 5 and not the largest id 7, and the next
    fetch asks for the offset 6. *)
Lemma LastUpdateID_is_last_id_not_largest :
  fetched (events_of
     (LongPoller.Poll 1 unordered_source never_stop 0 0 fresh_poller))
  = [[update_of 7; update_of 5]]
  /\ LongPoller.LastUpdateID (poller_of
        (LongPoller.Poll 1 unordered_source never_stop 0 0 fresh_poller)) = 5
  /\ ~ Forall (fun u =>
                 ID u <= LongPoller.LastUpdateID (poller_of
                   (LongPoller.Poll 1 unordered_source never_stop 0 0
                      fresh_poller)))
              [update_of 7; update_of 5]
  /\ offsets (events_of
        (LongPoller.Poll 2 unordered_source never_stop 0 0 fresh_poller))
     = [1; 6].
Proof.
  split; [reflexivity|]. split; [reflexivity|]. split; [|reflexivity].
  intros H. apply Forall_inv in H. cbn in H. lia.
Qed.

(** The start below the largest [int] is needed for [LastUpdateID] not
    to decrease: from the largest [int] the first fetch asks for the
    smallest, and a source that honours this offset takes
    [LastUpdateID] down to it. *)
Remark LastUpdateID_drops_from_largest_int :
  honours_offset steady_source
  /\ ids_below_max steady_source
  /\ LongPoller.LastUpdateID (poller_of
        (LongPoller.Poll 0 steady_source never_stop 0 0
           (LongPoller.mk 100 10 GoInt.max_int EmptyString))) = GoInt.max_int
  /\ LongPoller.LastUpdateID (poller_of
        (LongPoller.Poll 1 steady_source never_stop 0 0
           (LongPoller.mk 100 10 GoInt.max_int EmptyString))) = GoInt.min_int.
Proof.
  split; [|split; [|split; reflexivity]].
  - intros k offset limit timeout allowed updates. cbn.
    destruct (_ && _); intros E; injection E as <-; repeat constructor.
    cbv beta. cbn [ID update_of]. lia.
  - intros k offset limit timeout allowed updates. cbn.
    destruct (_ && _) eqn:Eb; intros E; injection E as <-;
      repeat constructor.
    all: apply andb_true_iff in Eb as [E1 E2];
      apply Z.leb_le in E1; apply Z.ltb_lt in E2;
      cbn [ID update_of]; lia.
Qed.

Section HandOff.

Import LongPoller.

Variable b : Bot.

Local Abbreviation events_at loads updates :=
  (map (fun iu => write_event (shouldWrireNextUpdate b (fst iu)) (snd iu))
       (combine (seq loads (List.length updates)) updates)).

Lemma dispatch_nth :
  forall updates loads i update,
    nth_error updates i = Some update ->
    nth_error (events_at loads updates) i
    = Some (if shouldWrireNextUpdate b (loads + i) =? 1
            then SendNextUpdate update else SendDest update).
Proof.
  induction updates as [|x updates IH]; intros loads i update E.
  - now destruct i.
  - destruct i as [|i]; cbn in E.
    + injection E as ->. cbn. now rewrite Nat.add_0_r.
    + cbn [List.length seq combine map nth_error].
      rewrite (IH (S loads) i update E). now rewrite Nat.add_succ_r.
Qed.

Lemma flag_down_all_output :
  forall updates loads,
    (forall i, (i < List.length updates)%nat ->
               shouldWrireNextUpdate b (loads + i) <> 1) ->
    handed_off (events_at loads updates) = []
    /\ output (events_at loads updates) = updates.
Proof.
  induction updates as [|x updates IH]; intros loads H; [now split|].
  cbn [List.length seq combine map fst snd]. unfold write_event at 1 3.
  assert (H0 : shouldWrireNextUpdate b loads <> 1).
  { specialize (H 0%nat). rewrite Nat.add_0_r in H. apply H. cbn. lia. }
  apply Z.eqb_neq in H0. rewrite H0. cbn [handed_off output].
  destruct (IH (S loads)) as [IH1 IH2].
  { intros i Hi. specialize (H (S i)). rewrite Nat.add_succ_r in H.
    apply H. cbn. lia. }
  now rewrite IH1, IH2.
Qed.

Lemma flag_up_once :
  forall updates loads j update,
    nth_error updates j = Some update ->
    (forall i, (i < List.length updates)%nat ->
               (shouldWrireNextUpdate b (loads + i) = 1 <-> i = j)) ->
    handed_off (events_at loads updates) = [update]
    /\ output (events_at loads updates)
       = firstn j updates ++ skipn (S j) updates.
Proof.
  induction updates as [|x updates IH]; intros loads j update E H.
  - now destruct j.
  - cbn [List.length seq combine map fst snd]. unfold write_event at 1 3.
    destruct j as [|j]; cbn in E.
    + injection E as ->.
      assert (H0 : shouldWrireNextUpdate b loads = 1).
      { specialize (H 0%nat). rewrite Nat.add_0_r in H. apply H; cbn; lia. }
      rewrite H0. cbn [Z.eqb Pos.eqb handed_off output firstn skipn app].
      destruct (flag_down_all_output updates (S loads)) as [D1 D2].
      { intros i Hi Hup. specialize (H (S i)). rewrite Nat.add_succ_r in H.
        cbn in H. apply H in Hup; [discriminate Hup | lia]. }
      now rewrite D1, D2.
    + assert (H0 : shouldWrireNextUpdate b loads <> 1).
      { intros Hup. specialize (H 0%nat). rewrite Nat.add_0_r in H.
        apply H in Hup; [discriminate Hup | cbn; lia]. }
      apply Z.eqb_neq in H0. rewrite H0. cbn [handed_off output].
      destruct (IH (S loads) j update E) as [IH1 IH2].
      { intros i Hi. specialize (H (S i)). rewrite Nat.add_succ_r in H.
        cbn in H. split.
        - intros Hup. apply H in Hup; [now injection Hup | lia].
        - intros ->. apply H; [lia | reflexivity]. }
      rewrite IH1, IH2. split; reflexivity.
Qed.

End HandOff.

(** C4: the flag is loaded once for every update of a batch, at the
    moment this update is dispatched; the update goes to the hand-off
    channel where the load reads 1 and to the output channel otherwise.
    So where the flag is up at the load for a single update of the batch
    and down at the others, this update alone is diverted and the others
    reach the output channel in their order, whatever the size of the
    batch. *)
Theorem flag_is_read_for_every_update :
  forall (b : Bot) (loads : nat) (updates : list Update) (p : LongPoller.t),
    let es := snd (LongPoller.dispatch b loads updates p) in
    List.length es = List.length updates
    /\ (forall i update,
          nth_error updates i = Some update ->
          nth_error es i
          = Some (if shouldWrireNextUpdate b (loads + i) =? 1
                  then SendNextUpdate update else SendDest update))
    /\ (forall j update,
          nth_error updates j = Some update ->
          (forall i, (i < List.length updates)%nat ->
                     (shouldWrireNextUpdate b (loads + i) = 1 <-> i = j)) ->
          handed_off es = [update]
          /\ output es = firstn j updates ++ skipn (S j) updates).
Proof.
  intros b loads updates p es. unfold es. rewrite dispatch_events.
  split; [|split].
  - rewrite length_map, length_combine, length_seq. lia.
  - intros i update E. now apply dispatch_nth.
  - intros j update E H. now apply flag_up_once.
Qed.

Lemma flag_is_read_for_every_update_witness :
  nth_error [update_of 1; update_of 2; update_of 3] 1 = Some (update_of 2)
  /\ (forall i, (i < List.length [update_of 1; update_of 2; update_of 3])%nat ->
                (shouldWrireNextUpdate orderly_source (0 + i) = 1 <-> i = 1%nat))
  /\ nth_error (snd (LongPoller.dispatch orderly_source 0
                       [update_of 1; update_of 2; update_of 3] fresh_poller)) 1
     = Some (SendNextUpdate (update_of 2))
  /\ handed_off (snd (LongPoller.dispatch orderly_source 0
                        [update_of 1; update_of 2; update_of 3] fresh_poller))
     = [update_of 2]
  /\ output (snd (LongPoller.dispatch orderly_source 0
                    [update_of 1; update_of 2; update_of 3] fresh_poller))
     = [update_of 1; update_of 3].
Proof.
  assert (Hflag : forall i, (i < List.length [update_of 1; update_of 2; update_of 3])%nat ->
            (shouldWrireNextUpdate orderly_source (0 + i) = 1 <-> i = 1%nat)).
  { intros i Hi. cbn in Hi.
    destruct i as [|[|[|i]]]; cbn; split; intros H;
      solve [reflexivity | discriminate H | lia]. }
  pose proof (flag_is_read_for_every_update orderly_source 0
                [update_of 1; update_of 2; update_of 3] fresh_poller) as [_ [Hnth Hone]].
  split; [reflexivity|]. split; [exact Hflag|].
  split; [exact (Hnth 1%nat (update_of 2) eq_refl)|].
  exact (Hone 1%nat (update_of 2) eq_refl Hflag).
Defined.

Section LongPollerExit.

Import LongPoller.

Variables (b : Bot) (stop : nat -> bool).

(** A run that has returned ends with the receive from [stop]. *)
Lemma Poll_returned_on_stop fuel k loads p :
  status_of (Poll fuel b stop k loads p) = Returned ->
  exists i es,
    (k <= i)%nat /\ stop i = true
    /\ events_of (Poll fuel b stop k loads p) = es ++ [RecvStop].
Proof.
  revert fuel k loads p.
  apply (Poll_ind b stop
           (fun k _ _ r =>
              status_of r = Returned ->
              exists i es,
                (k <= i)%nat /\ stop i = true
                /\ events_of r = es ++ [RecvStop])).
  - intros k loads p H. discriminate H.
  - intros k loads p Es _. exists k, []. now repeat split.
  - intros k loads p err r _ _ IH H.
    destruct (IH H) as [i [es [Hi [Hs E]]]].
    exists i, (fetch_event b k p :: Debug err :: es).
    cbn [events_of fst snd] in *. rewrite E. repeat split; [lia | exact Hs].
  - intros k loads p updates r _ _ IH H.
    destruct (IH H) as [i [es [Hi [Hs E]]]].
    exists i, (fetch_event b k p :: snd (dispatch b loads updates p) ++ es).
    cbn [events_of fst snd] in *. rewrite E, app_assoc.
    repeat split; [lia | exact Hs].
Qed.

(** While [stop] is silent the loop goes on, whatever the fetch calls
    answer. *)
Lemma Poll_goes_on fuel k loads p :
  (forall i, (k <= i)%nat -> stop i = false) ->
  status_of (Poll fuel b stop k loads p) = Polling.
Proof.
  revert fuel k loads p.
  apply (Poll_ind b stop
           (fun k _ _ r =>
              (forall i, (k <= i)%nat -> stop i = false) ->
              status_of r = Polling)).
  - reflexivity.
  - intros k loads p Es H. rewrite H in Es by lia. discriminate Es.
  - intros k loads p err r _ _ IH H. apply IH. intros i Hi. apply H. lia.
  - intros k loads p updates r _ _ IH H. apply IH. intros i Hi. apply H. lia.
Qed.

(** The loop returns at the first iteration that finds [stop] ready. *)
Lemma Poll_returns_at_stop :
  forall n k loads p,
    stop (k + n) = true ->
    (forall i, (i < n)%nat -> stop (k + i) = false) ->
    status_of (Poll (S n) b stop k loads p) = Returned.
Proof.
  induction n as [|n IH]; intros k loads p Hs Hbefore.
  - rewrite Nat.add_0_r in Hs. now rewrite Poll_stop.
  - assert (Es : stop k = false).
    { specialize (Hbefore 0%nat). rewrite Nat.add_0_r in Hbefore.
      apply Hbefore. lia. }
    assert (Hs' : stop (S k + n) = true) by now rewrite Nat.add_succ_r in Hs.
    assert (Hb' : forall i, (i < n)%nat -> stop (S k + i) = false).
    { intros i Hi. specialize (Hbefore (S i)).
      rewrite Nat.add_succ_r in Hbefore. apply Hbefore. lia. }
    destruct (fetch_result b k p) as [err|updates] eqn:Ef.
    + erewrite Poll_error by eassumption. cbn [status_of snd].
      now apply IH.
    + erewrite Poll_batch by eassumption. cbn [status_of snd].
      now apply IH.
Qed.

End LongPollerExit.

(** C5: an iteration whose fetch fails reports the error to the debug
    hook, writes no update, leaves the poller as it was and is followed
    at once by the next iteration; the loop does not return as long as
    the stop signal is silent, whatever the fetch calls answer; a run
    that has returned ends with the receive from [stop]; and the loop
    returns at the first iteration that finds the stop signal. *)
Theorem fetch_error_is_reported_and_retried :
  forall (b : Bot) (stop : nat -> bool) (fuel k loads : nat) (p : LongPoller.t),
    (forall err,
        stop k = false -> fetch_result b k p = inl err ->
        LongPoller.Poll (S fuel) b stop k loads p
        = let r := LongPoller.Poll fuel b stop (S k) loads p in
          (poller_of r, fetch_event b k p :: Debug err :: events_of r,
           status_of r))
    /\ ((forall i, (k <= i)%nat -> stop i = false) ->
        status_of (LongPoller.Poll fuel b stop k loads p) = LongPoller.Polling)
    /\ (status_of (LongPoller.Poll fuel b stop k loads p) = LongPoller.Returned ->
        exists i es,
          (k <= i)%nat /\ stop i = true
          /\ events_of (LongPoller.Poll fuel b stop k loads p)
             = es ++ [RecvStop])
    /\ (stop (k + fuel)%nat = true ->
        (forall i, (i < fuel)%nat -> stop (k + i)%nat = false) ->
        status_of (LongPoller.Poll (S fuel) b stop k loads p)
        = LongPoller.Returned).
Proof.
  intros b stop fuel k loads p. split; [|split; [|split]].
  - intros err Es Ef. now apply Poll_error.
  - apply Poll_goes_on.
  - apply Poll_returned_on_stop.
  - apply Poll_returns_at_stop.
Qed.

Lemma fetch_error_is_reported_and_retried_witness :
  (stop_from 3 0%nat = false
   /\ fetch_result failing_source 0 fresh_poller = inl "timeout"%string
   /\ LongPoller.Poll 4 failing_source (stop_from 3) 0 0 fresh_poller
      = (fresh_poller,
         [fetch_event failing_source 0 fresh_poller; Debug "timeout"%string;
          fetch_event failing_source 1 fresh_poller; Debug "timeout"%string;
          fetch_event failing_source 2 fresh_poller; Debug "timeout"%string;
          RecvStop],
         LongPoller.Returned))
  /\ ((forall i, (0 <= i)%nat -> never_stop i = false)
      /\ status_of (LongPoller.Poll 3 failing_source never_stop 0 0 fresh_poller)
         = LongPoller.Polling)
  /\ (exists i es,
        (0 <= i)%nat /\ stop_from 3 i = true
        /\ events_of (LongPoller.Poll 4 failing_source (stop_from 3) 0 0
                        fresh_poller)
           = es ++ [RecvStop])
  /\ (stop_from 3 (0 + 3)%nat = true
      /\ (forall i, (i < 3)%nat -> stop_from 3 (0 + i)%nat = false)
      /\ status_of (LongPoller.Poll 4 failing_source (stop_from 3) 0 0
                      fresh_poller)
         = LongPoller.Returned).
Proof.
  pose proof (fetch_error_is_reported_and_retried
                failing_source (stop_from 3) 3 0 0 fresh_poller)
    as [Herr [_ [_ Hstop]]].
  pose proof (fetch_error_is_reported_and_retried
                failing_source (stop_from 3) 4 0 0 fresh_poller)
    as [_ [_ [Hret _]]].
  pose proof (fetch_error_is_reported_and_retried
                failing_source never_stop 3 0 0 fresh_poller)
    as [_ [Hon _]].
  assert (Hsilent : forall i, (i < 3)%nat -> stop_from 3 (0 + i)%nat = false).
  { intros i Hi. destruct i as [|[|[|i]]]; [reflexivity.. | lia]. }
  split.
  { split; [reflexivity|]. split; [reflexivity|].
    rewrite (Herr "timeout"%string eq_refl eq_refl). reflexivity. }
  split.
  { split; [reflexivity|]. apply Hon. reflexivity. }
  split.
  { apply Hret. exact (Hstop eq_refl Hsilent). }
  split; [reflexivity|]. split; [exact Hsilent|].
  exact (Hstop eq_refl Hsilent).
Defined.

(** ** Executions *)

Section ExecutionFacts.

Variables (S L : Type) (step : S -> L -> S -> Prop).

Lemma steps_cons s0 l s1 tr s :
  step s0 l s1 -> steps step s1 tr s -> steps step s0 (l :: tr) s.
Proof.
  intros H R. induction R as [|tr s l' s' R IH Hl'].
  - change [l] with ([] ++ [l]). econstructor; [constructor | exact H].
  - change (l :: tr ++ [l']) with ((l :: tr) ++ [l']). econstructor; eassumption.
Qed.

Lemma steps_app s0 tr1 s1 tr2 s2 :
  steps step s0 tr1 s1 -> steps step s1 tr2 s2 -> steps step s0 (tr1 ++ tr2) s2.
Proof.
  intros R1 R2. induction R2 as [|tr s l' s' R IH Hl'].
  - now rewrite app_nil_r.
  - rewrite app_assoc. econstructor; eassumption.
Qed.

Lemma steps_snoc_inv s0 tr l s :
  steps step s0 (tr ++ [l]) s -> exists s1, steps step s0 tr s1 /\ step s1 l s.
Proof.
  intros R. inversion R as [E | tr' s1 l' s' R' Hl E]; subst.
  - now destruct tr.
  - apply app_inj_tail in E as [-> ->]. now exists s1.
Qed.

Lemma steps_app_inv s0 tr1 tr2 s :
  steps step s0 (tr1 ++ tr2) s ->
  exists s1, steps step s0 tr1 s1 /\ steps step s1 tr2 s.
Proof.
  revert s. induction tr2 as [|l tr2 IH] using rev_ind; intros s R.
  - rewrite app_nil_r in R. exists s. split; [exact R | constructor].
  - rewrite app_assoc in R. apply steps_snoc_inv in R as [s' [R Hl]].
    destruct (IH _ R) as [s1 [R1 R2]].
    exists s1. split; [exact R1 | econstructor; eassumption].
Qed.

Lemma steps_cons_inv s0 l tr s :
  steps step s0 (l :: tr) s -> exists s1, step s0 l s1 /\ steps step s1 tr s.
Proof.
  intros R. change (l :: tr) with ([l] ++ tr) in R.
  apply steps_app_inv in R as [s1 [R1 R2]].
  change [l] with ([] ++ [l]) in R1.
  apply steps_snoc_inv in R1 as [s0' [R0 Hl]].
  inversion R0 as [E | tr' ? ? ? ? ? E]; subst;
    [| now destruct tr'].
  now exists s1.
Qed.

Lemma precedes_nil (a b : L) : precedes a b [].
Proof. intros t1 t2 E. now destruct t1. Qed.

Lemma precedes_snoc (a b : L) tr l :
  precedes a b tr -> (l = b -> In a tr) -> precedes a b (tr ++ [l]).
Proof.
  intros H Hl t1 t2 E. destruct t2 as [|x t2 _] using rev_ind.
  - apply app_inj_tail in E as [-> ->]. now apply Hl.
  - change (t1 ++ b :: t2 ++ [x]) with (t1 ++ (b :: t2) ++ [x]) in E.
    rewrite app_assoc in E. apply app_inj_tail in E as [E _].
    now apply (H t1 t2).
Qed.

Lemma precedes_trans (a b c : L) tr :
  precedes a b tr -> precedes b c tr -> precedes a c tr.
Proof.
  intros Hab Hbc t1 t2 E.
  pose proof (Hbc _ _ E) as Hb.
  apply in_split in Hb as [t1a [t1b ->]].
  rewrite <- app_assoc in E. cbn in E.
  apply Hab in E. apply in_or_app. now left.
Qed.

End ExecutionFacts.

(** ** MiddlewarePoller *)

Section Handshake.

Import MiddlewarePoller.

Variable p : t.

(** What the program points and the two signalling channels say about
    the steps made so far. *)
Lemma handshake_invariant tr s :
  steps (step p) (start p) tr s ->
  (loop s = ClosingStopPoller -> In OuterStop tr)
  /\ (loop s = AwaitingConfirm -> In CloseStopPoller tr)
  /\ (loop s = Returning -> In RecvConfirm tr)
  /\ (loop s = Done -> In Ret tr)
  /\ (goroutine s = ClosingConfirm -> In (Inner Poller.Return) tr)
  /\ (stopConfirm s = true -> In CloseConfirm tr /\ goroutine s = Finished)
  /\ (stopPoller s = true -> In CloseStopPoller tr)
  /\ (loop s = AwaitingConfirm \/ loop s = Returning \/ loop s = Done ->
      stopPoller s = true)
  /\ (loop s = Returning \/ loop s = Done -> stopConfirm s = true).
Proof.
  induction 1 as [|tr s l s' R IH Hstep].
  - cbn. repeat split; intros;
      repeat match goal with
             | H : _ \/ _ |- _ => destruct H
             end;
      discriminate.
  - destruct IH as (I1 & I2 & I3 & I4 & I5 & I6 & I7 & I8 & I9).
    inversion Hstep; subst; unfold with_inner, with_loop; cbn;
      repeat split; intros; rewrite ?in_app_iff; cbn;
      repeat match goal with
             | H : _ \/ _ |- _ => destruct H
             | H : (if ?c then _ else _) = _ |- _ => destruct c
             end;
      try discriminate; try congruence;
      try solve [ auto 6 | left; auto 6 | right; left; reflexivity
                | apply I6; assumption
                | apply I8; auto | apply I9; auto
                | left; apply I6; assumption
                | match goal with
                  | H : stopConfirm _ = true |- _ =>
                      destruct (I6 H); congruence
                  end ].
Qed.

End Handshake.

Section HandshakeOrder.

Import MiddlewarePoller.

Variable p : t.

Lemma precedes_by_guard (a b : label) :
  (forall tr s s',
      steps (step p) (start p) tr s -> step p s b s' -> In a tr) ->
  forall tr s, steps (step p) (start p) tr s -> precedes a b tr.
Proof.
  intros Hguard. induction 1 as [|tr s l s' R IH Hstep].
  - apply precedes_nil.
  - apply precedes_snoc; [exact IH|]. intros ->. now apply (Hguard tr s s').
Qed.

Ltac by_guard :=
  apply precedes_by_guard;
  let R := fresh "R" in
  let Hstep := fresh "Hstep" in
  intros ? ? ? R Hstep; inversion Hstep; subst;
  destruct (handshake_invariant R) as (? & ? & ? & ? & ? & I6 & ? & ? & ?);
  solve [ auto | apply I6; assumption ].

Lemma stop_before_close_request tr s :
  steps (step p) (start p) tr s -> precedes OuterStop CloseStopPoller tr.
Proof. by_guard. Qed.

Lemma close_request_before_confirmed tr s :
  steps (step p) (start p) tr s -> precedes CloseStopPoller RecvConfirm tr.
Proof. by_guard. Qed.

Lemma close_request_before_inner_stopped tr s :
  steps (step p) (start p) tr s ->
  precedes CloseStopPoller (Inner Poller.Stopped) tr.
Proof. by_guard. Qed.

Lemma inner_return_before_close_confirm tr s :
  steps (step p) (start p) tr s ->
  precedes (Inner Poller.Return) CloseConfirm tr.
Proof. by_guard. Qed.

Lemma close_confirm_before_confirmed tr s :
  steps (step p) (start p) tr s -> precedes CloseConfirm RecvConfirm tr.
Proof. by_guard. Qed.

Lemma confirmed_before_return tr s :
  steps (step p) (start p) tr s -> precedes RecvConfirm Ret tr.
Proof. by_guard. Qed.

Lemma returned_after_inner_return tr s :
  steps (step p) (start p) tr s ->
  loop s = Done ->
  In (Inner Poller.Return) tr
  /\ goroutine s = Finished /\ stopPoller s = true /\ stopConfirm s = true.
Proof.
  intros R Hdone.
  destruct (handshake_invariant R) as (_ & _ & _ & _ & _ & I6 & _ & I8 & I9).
  assert (Hc : stopConfirm s = true) by auto.
  destruct (I6 Hc) as [Hin Hfin].
  repeat split; auto.
  apply in_split in Hin as [t1 [t2 E]].
  pose proof (inner_return_before_close_confirm R t1 t2 E) as Hret.
  rewrite E. apply in_or_app. now left.
Qed.

(** Once [Poll] has returned neither goroutine makes a step. *)
Lemma returned_is_final tr s :
  steps (step p) (start p) tr s ->
  loop s = Done -> forall l s', ~ step p s l s'.
Proof.
  intros R Hdone l s' Hstep.
  destruct (returned_after_inner_return R Hdone) as (_ & Hfin & _ & _).
  inversion Hstep; subst; congruence.
Qed.

Lemma nothing_after_return tr s :
  steps (step p) (start p) tr s ->
  forall t1 t2, tr = t1 ++ Ret :: t2 -> t2 = [].
Proof.
  intros R t1 t2 ->.
  change (t1 ++ Ret :: t2) with (t1 ++ [Ret] ++ t2) in R.
  rewrite app_assoc in R.
  apply steps_app_inv in R as [s1 [R1 R2]].
  destruct t2 as [|l t2]; [reflexivity|]. exfalso.
  apply steps_cons_inv in R2 as [s2 [Hl _]].
  apply (returned_is_final R1) in Hl; [exact Hl|].
  apply steps_snoc_inv in R1 as [s0 [_ Hret]].
  inversion Hret; subst. reflexivity.
Qed.

End HandshakeOrder.

Lemma relay_and_stop_runs :
  steps (MiddlewarePoller.step relay_one) (MiddlewarePoller.start relay_one)
        relay_and_stop stopped_state.
Proof.
  unfold relay_and_stop.
  repeat (eapply steps_cons;
          [ solve [ econstructor; try reflexivity; try constructor ] | ]).
  apply steps_nil.
Qed.

(** C3: once the loop of the middleware has received from [stop] it
    closes [stopPoller] and only then receives from [stopConfirm];
    [stopConfirm] is closed only after the wrapped [Poll] has returned,
    and the wrapped poller sees the stop request only after it was
    closed.  So [Poll] returns only after the wrapped [Poll] has, and
    once it has returned nothing more happens: the wrapped poller writes
    no further update to [middle]. *)
Theorem Poll_returns_after_wrapped_Poll :
  forall (p : MiddlewarePoller.t) tr s,
    steps (MiddlewarePoller.step p) (MiddlewarePoller.start p) tr s ->
    precedes MiddlewarePoller.OuterStop MiddlewarePoller.CloseStopPoller tr
    /\ precedes MiddlewarePoller.CloseStopPoller MiddlewarePoller.RecvConfirm tr
    /\ precedes MiddlewarePoller.CloseStopPoller
                (MiddlewarePoller.Inner Poller.Stopped) tr
    /\ precedes (MiddlewarePoller.Inner Poller.Return)
                MiddlewarePoller.CloseConfirm tr
    /\ precedes MiddlewarePoller.CloseConfirm MiddlewarePoller.RecvConfirm tr
    /\ precedes MiddlewarePoller.RecvConfirm MiddlewarePoller.Ret tr
    /\ precedes (MiddlewarePoller.Inner Poller.Return) MiddlewarePoller.Ret tr
    /\ (forall t1 t2, tr = t1 ++ MiddlewarePoller.Ret :: t2 -> t2 = [])
    /\ (MiddlewarePoller.loop s = MiddlewarePoller.Done ->
        In (MiddlewarePoller.Inner Poller.Return) tr
        /\ MiddlewarePoller.goroutine s = MiddlewarePoller.Finished
        /\ MiddlewarePoller.stopPoller s = true
        /\ MiddlewarePoller.stopConfirm s = true).
Proof.
  intros p tr s R.
  pose proof (stop_before_close_request R) as H1.
  pose proof (close_request_before_confirmed R) as H2.
  pose proof (close_request_before_inner_stopped R) as H3.
  pose proof (inner_return_before_close_confirm R) as H4.
  pose proof (close_confirm_before_confirmed R) as H5.
  pose proof (confirmed_before_return R) as H6.
  assert (H7 : precedes (MiddlewarePoller.Inner Poller.Return)
                        MiddlewarePoller.Ret tr).
  { eapply precedes_trans; [|exact H6].
    eapply precedes_trans; [exact H4 | exact H5]. }
  repeat split; try assumption;
    solve [ now apply (returned_after_inner_return R)
          | intros; eapply nothing_after_return; eassumption ].
Qed.

Lemma Poll_returns_after_wrapped_Poll_witness :
  steps (MiddlewarePoller.step relay_one) (MiddlewarePoller.start relay_one)
        relay_and_stop stopped_state
  /\ MiddlewarePoller.loop stopped_state = MiddlewarePoller.Done
  /\ precedes (MiddlewarePoller.Inner Poller.Return) MiddlewarePoller.Ret
              relay_and_stop
  /\ In (MiddlewarePoller.Inner Poller.Return) relay_and_stop
  /\ MiddlewarePoller.goroutine stopped_state = MiddlewarePoller.Finished.
Proof.
  pose proof (Poll_returns_after_wrapped_Poll relay_and_stop_runs)
    as (_ & _ & _ & _ & _ & _ & Hbefore & _ & Hdone).
  destruct (Hdone eq_refl) as (Hin & Hfin & _ & _).
  split; [exact relay_and_stop_runs|]. split; [reflexivity|].
  split; [exact Hbefore|]. split; [exact Hin | exact Hfin].
Defined.

Section Relay.

Import MiddlewarePoller.
Import Trace.

Lemma emitted_app tr1 tr2 : emitted (tr1 ++ tr2) = emitted tr1 ++ emitted tr2.
Proof.
  induction tr1 as [|l tr1 IH]; [reflexivity|].
  destruct l as [[]| | | | | | | |]; cbn; now rewrite IH.
Qed.

Lemma relayed_app tr1 tr2 : relayed (tr1 ++ tr2) = relayed tr1 ++ relayed tr2.
Proof.
  induction tr1 as [|l tr1 IH]; [reflexivity|].
  destruct l; cbn; now rewrite IH.
Qed.

Lemma judged_app tr1 tr2 : judged (tr1 ++ tr2) = judged tr1 ++ judged tr2.
Proof.
  induction tr1 as [|l tr1 IH]; [reflexivity|].
  destruct l; cbn; now rewrite IH.
Qed.

Lemma forwarded_app tr1 tr2 :
  forwarded (tr1 ++ tr2) = forwarded tr1 ++ forwarded tr2.
Proof.
  induction tr1 as [|l tr1 IH]; [reflexivity|].
  destruct l; cbn; now rewrite IH.
Qed.

Lemma inner_actions_app tr1 tr2 :
  inner_actions (tr1 ++ tr2) = inner_actions tr1 ++ inner_actions tr2.
Proof.
  induction tr1 as [|l tr1 IH]; [reflexivity|].
  destruct l; cbn; now rewrite IH.
Qed.

Lemma emits_app tr1 tr2 : emits (tr1 ++ tr2) = emits tr1 ++ emits tr2.
Proof.
  induction tr1 as [|a tr1 IH]; [reflexivity|].
  destruct a; cbn; now rewrite IH.
Qed.

Lemma sieve_app filter l1 l2 :
  sieve filter (l1 ++ l2) = sieve filter l1 ++ sieve filter l2.
Proof.
  induction l1 as [|x l1 IH]; [reflexivity|].
  cbn. destruct (fst (filter x)); cbn; now rewrite IH.
Qed.

Lemma sieve_transparent filter l : transparent filter -> sieve filter l = l.
Proof.
  intros H. induction l as [|x l IH]; [reflexivity|].
  cbn. rewrite (H x). cbn. now rewrite IH.
Qed.

Lemma sieve_rejecting filter l :
  (forall upd, fst (filter upd) = false) -> sieve filter l = [].
Proof.
  intros H. induction l as [|x l IH]; [reflexivity|].
  cbn. now rewrite (H x).
Qed.

Variable p : t.

Ltac settle :=
  cbn in *; rewrite ?app_nil_r in *; repeat split; auto;
  try (intros ? Hs; discriminate Hs).

(** Where every update the wrapped poller sent is: taken from
    [middle] or still in it; judged by the filter or held by the loop;
    and, if accepted, sent on [dest] or about to be. *)
Lemma relay_accounting tr s :
  steps (step p) (start p) tr s ->
  emitted tr = relayed tr ++ middle s
  /\ relayed tr = judged tr ++ held_unjudged (loop s)
  /\ sieve (Filter p) (judged tr) = forwarded tr ++ held_accepted (loop s)
  /\ (forall upd, loop s = Sending upd ->
        exists l upd0,
          relayed tr = l ++ [upd0]
          /\ fst (Filter p upd0) = true /\ snd (Filter p upd0) = upd).
Proof.
  induction 1 as [|tr s l s' R IH Hstep].
  - cbn. repeat split. intros upd0 Hs; discriminate Hs.
  - destruct IH as (E1 & E2 & E3 & E4).
    rewrite emitted_app, relayed_app, judged_app, forwarded_app, sieve_app.
    inversion Hstep; subst; unfold with_inner, with_loop;
      cbn [loop middle emitted relayed judged forwarded sieve
           held_unjudged held_accepted];
      rewrite ?app_nil_r.
    all: try solve [ repeat split; auto ].
    + (* the wrapped poller sends *)
      repeat split; auto. rewrite E1. now rewrite app_assoc.
    + (* receive from middle *)
      match goal with H : middle s = _ |- _ => rewrite H in E1 end.
      match goal with H : loop s = Select |- _ => rewrite H in * end.
      cbn in *. rewrite app_nil_r in *.
      repeat split.
      * rewrite E1. now rewrite <- app_assoc.
      * now rewrite E2.
      * exact E3.
      * intros upd' Hs; discriminate Hs.
    + (* the filter is called *)
      match goal with H : loop s = Filtering _ |- _ => rewrite H in * end.
      cbn in *. rewrite app_nil_r in *.
      destruct (fst (Filter p upd)) eqn:Ev; cbn; rewrite ?app_nil_r.
      * repeat split; auto.
        -- now rewrite E3.
        -- intros upd' Hs. injection Hs as <-. exists (judged tr), upd.
           now repeat split.
      * repeat split; auto. intros upd' Hs; discriminate Hs.
    + (* send on dest *)
      match goal with H : loop s = Sending _ |- _ => rewrite H in * end.
      settle.
    + (* receive from stop *)
      match goal with H : loop s = Select |- _ => rewrite H in * end.
      settle.
    + match goal with H : loop s = ClosingStopPoller |- _ => rewrite H in * end.
      settle.
    + match goal with H : loop s = AwaitingConfirm |- _ => rewrite H in * end.
      settle.
    + match goal with H : loop s = Returning |- _ => rewrite H in * end.
      settle.
Qed.

End Relay.

Section Drain.

Import MiddlewarePoller.
Import Trace.

Variable p : t.

Lemma relay_capacity_pos : 1 <= relay_capacity p.
Proof.
  unfold relay_capacity. destruct (Capacity p <? 1) eqn:E; [lia|].
  apply Z.ltb_ge in E. exact E.
Qed.

Hypothesis rejecting : forall upd, fst (Filter p upd) = false.

Lemma rejected_back_to_select s upd :
  loop s = Filtering upd ->
  step p s (CallFilter upd false (snd (Filter p upd)))
       (with_loop p s Select (middle s) (stopPoller s)).
Proof.
  intros H. pose proof (step_call_filter p s H) as Hstep.
  now rewrite (rejecting upd) in Hstep.
Qed.

(** With a filter that rejects everything, the loop can take all that
    [middle] holds without a send on [dest]. *)
Lemma loop_drains_middle :
  forall m s,
    middle s = m -> loop s = Select ->
    exists tr' s',
      steps (step p) s tr' s'
      /\ forwarded tr' = [] /\ inner_actions tr' = []
      /\ middle s' = [] /\ loop s' = Select
      /\ inner s' = inner s /\ goroutine s' = goroutine s.
Proof.
  induction m as [|upd m IH]; intros s Hm Hl.
  - exists [], s. repeat split; [constructor | assumption..].
  - pose proof (step_recv_middle p s Hl Hm) as S1.
    set (s1 := with_loop p s (Filtering upd) m (stopPoller s)) in S1.
    pose proof (rejected_back_to_select s1 eq_refl) as S2.
    set (s2 := with_loop p s1 Select (middle s1) (stopPoller s1)) in S2.
    destruct (IH s2 eq_refl eq_refl) as (tr' & s' & R & F & A & M & L' & I & G).
    exists (RecvMiddle upd :: CallFilter upd false (snd (Filter p upd)) :: tr'), s'.
    repeat split; try assumption.
    eapply steps_cons; [exact S1|]. eapply steps_cons; [exact S2 | exact R].
Qed.

Lemma loop_drains s :
  loop s = Select \/ (exists upd, loop s = Filtering upd) ->
  exists tr' s',
    steps (step p) s tr' s'
    /\ forwarded tr' = [] /\ inner_actions tr' = []
    /\ middle s' = [] /\ loop s' = Select
    /\ inner s' = inner s /\ goroutine s' = goroutine s
    /\ (forall upd i',
          goroutine s' = InPoll ->
          Poller.step (Poller p) (inner s') (Poller.Emit upd) i' ->
          exists s'', step p s' (Inner (Poller.Emit upd)) s'').
Proof.
  intros Hl.
  assert (exists tr' s',
             steps (step p) s tr' s'
             /\ forwarded tr' = [] /\ inner_actions tr' = []
             /\ middle s' = [] /\ loop s' = Select
             /\ inner s' = inner s /\ goroutine s' = goroutine s)
    as (tr' & s' & R & F & A & M & L' & I & G).
  { destruct Hl as [Hl | [upd Hl]].
    - exact (@loop_drains_middle _ s eq_refl Hl).
    - pose proof (rejected_back_to_select s Hl) as S1.
      set (s1 := with_loop p s Select (middle s) (stopPoller s)) in S1.
      destruct (@loop_drains_middle _ s1 eq_refl eq_refl)
        as (tr' & s' & R & F & A & M & L' & I & G).
      exists (CallFilter upd false (snd (Filter p upd)) :: tr'), s'.
      repeat split; try assumption.
      eapply steps_cons; [exact S1 | exact R]. }
  exists tr', s'. repeat split; try assumption.
  intros upd i' Hg Hi. eexists. apply step_inner_emit; [exact Hg | exact Hi |].
  rewrite M. cbn. pose proof relay_capacity_pos. lia.
Qed.

End Drain.

Section Delivery.

Import MiddlewarePoller.
Import Trace.

Variable p : t.

(** Where the loop is at its select or holds an update, it can finish
    with the update it holds without a step of the wrapped poller; by
    then every update taken from [middle] for which the filter returned
    true has been sent on [dest]. *)
Lemma loop_delivers tr s :
  steps (step p) (start p) tr s ->
  loop s = Select
  \/ (exists upd, loop s = Filtering upd)
  \/ (exists upd, loop s = Sending upd) ->
  exists tr' s',
    steps (step p) s tr' s'
    /\ inner_actions tr' = [] /\ relayed tr' = []
    /\ loop s' = Select
    /\ middle s' = middle s /\ inner s' = inner s
    /\ forwarded (tr ++ tr') = sieve (Filter p) (relayed tr).
Proof.
  intros R Hl. destruct (relay_accounting R) as (_ & E2 & E3 & _).
  destruct Hl as [Hl | [[upd Hl] | [upd Hl]]]; rewrite Hl in E2, E3;
    cbn [held_unjudged held_accepted] in E2, E3; rewrite ?app_nil_r in E2, E3.
  - exists [], s. rewrite app_nil_r, E2, E3.
    repeat split; try assumption. constructor.
  - pose proof (step_call_filter p s Hl) as S1.
    rewrite E2, sieve_app, E3. cbn [sieve].
    destruct (fst (Filter p upd)) eqn:Ev.
    + set (s1 := with_loop p s (Sending (snd (Filter p upd)))
                   (middle s) (stopPoller s)) in *.
      pose proof (step_forward p s1 eq_refl) as S2.
      exists [CallFilter upd true (snd (Filter p upd));
              Forward (snd (Filter p upd))].
      eexists. split.
      { eapply steps_cons; [exact S1|]. eapply steps_cons; [exact S2|].
        apply steps_nil. }
      rewrite forwarded_app, app_nil_r. now repeat split.
    + exists [CallFilter upd false (snd (Filter p upd))].
      eexists. split.
      { eapply steps_cons; [exact S1 | apply steps_nil]. }
      rewrite forwarded_app. cbn. rewrite !app_nil_r. now repeat split.
  - pose proof (step_forward p s Hl) as S1.
    exists [Forward upd]. eexists. split.
    { eapply steps_cons; [exact S1 | apply steps_nil]. }
    rewrite forwarded_app, E2, app_nil_r, E3. now repeat split.
Qed.

End Delivery.

(** C6: the loop calls the filter on every update it takes from
    [middle], in the order taken, and sends on [dest] exactly those for
    which the filter returns true, in this order; an update the filter
    rejects takes the loop back to the select with nothing else changed.
    With a filter that rejects everything nothing is ever sent on
    [dest], every update the wrapped poller sent was taken or is in
    [middle], and the loop can always empty [middle] without a send on
    [dest], after which a send of the wrapped poller goes through.
    An update for which the filter returns true takes the loop to the
    send on [dest], which goes through; so as long as the loop has not
    received from [stop] it can finish with the update it holds, and
    then all the updates taken from [middle] for which the filter
    returned true have been sent on [dest]. *)
Theorem filter_decides_what_is_forwarded :
  forall (p : MiddlewarePoller.t) tr s,
    steps (MiddlewarePoller.step p) (MiddlewarePoller.start p) tr s ->
    Trace.relayed tr = Trace.judged tr ++ held_unjudged (MiddlewarePoller.loop s)
    /\ Trace.forwarded tr ++ held_accepted (MiddlewarePoller.loop s)
       = sieve (MiddlewarePoller.Filter p) (Trace.judged tr)
    /\ (forall upd upd' s',
          MiddlewarePoller.step p s (MiddlewarePoller.CallFilter upd false upd') s' ->
          s' = MiddlewarePoller.with_loop p s MiddlewarePoller.Select
                 (MiddlewarePoller.middle s) (MiddlewarePoller.stopPoller s))
    /\ ((forall upd, fst (MiddlewarePoller.Filter p upd) = false) ->
        Trace.forwarded tr = []
        /\ Trace.emitted tr = Trace.relayed tr ++ MiddlewarePoller.middle s
        /\ (MiddlewarePoller.loop s = MiddlewarePoller.Select
            \/ (exists upd,
                   MiddlewarePoller.loop s = MiddlewarePoller.Filtering upd) ->
            exists tr' s',
              steps (MiddlewarePoller.step p) s tr' s'
              /\ Trace.forwarded tr' = [] /\ Trace.inner_actions tr' = []
              /\ MiddlewarePoller.middle s' = []
              /\ MiddlewarePoller.loop s' = MiddlewarePoller.Select
              /\ MiddlewarePoller.inner s' = MiddlewarePoller.inner s
              /\ MiddlewarePoller.goroutine s' = MiddlewarePoller.goroutine s
              /\ (forall upd i',
                    MiddlewarePoller.goroutine s' = MiddlewarePoller.InPoll ->
                    Poller.step (MiddlewarePoller.Poller p)
                      (MiddlewarePoller.inner s') (Poller.Emit upd) i' ->
                    exists s'',
                      MiddlewarePoller.step p s'
                        (MiddlewarePoller.Inner (Poller.Emit upd)) s'')))
    /\ (forall upd,
          MiddlewarePoller.loop s = MiddlewarePoller.Filtering upd ->
          fst (MiddlewarePoller.Filter p upd) = true ->
          exists s1 s2,
            MiddlewarePoller.step p s
              (MiddlewarePoller.CallFilter upd true
                 (snd (MiddlewarePoller.Filter p upd))) s1
            /\ MiddlewarePoller.loop s1
               = MiddlewarePoller.Sending (snd (MiddlewarePoller.Filter p upd))
            /\ MiddlewarePoller.step p s1
                 (MiddlewarePoller.Forward (snd (MiddlewarePoller.Filter p upd)))
                 s2
            /\ MiddlewarePoller.loop s2 = MiddlewarePoller.Select)
    /\ (forall upd,
          MiddlewarePoller.loop s = MiddlewarePoller.Sending upd ->
          exists s',
            MiddlewarePoller.step p s (MiddlewarePoller.Forward upd) s'
            /\ MiddlewarePoller.loop s' = MiddlewarePoller.Select
            /\ MiddlewarePoller.middle s' = MiddlewarePoller.middle s)
    /\ (MiddlewarePoller.loop s = MiddlewarePoller.Select
        \/ (exists upd, MiddlewarePoller.loop s = MiddlewarePoller.Filtering upd)
        \/ (exists upd, MiddlewarePoller.loop s = MiddlewarePoller.Sending upd) ->
        exists tr' s',
          steps (MiddlewarePoller.step p) s tr' s'
          /\ Trace.inner_actions tr' = [] /\ Trace.relayed tr' = []
          /\ MiddlewarePoller.loop s' = MiddlewarePoller.Select
          /\ MiddlewarePoller.middle s' = MiddlewarePoller.middle s
          /\ MiddlewarePoller.inner s' = MiddlewarePoller.inner s
          /\ Trace.forwarded (tr ++ tr')
             = sieve (MiddlewarePoller.Filter p) (Trace.relayed tr)).
Proof.
  intros p tr s R.
  destruct (relay_accounting R) as (E1 & E2 & E3 & _).
  split; [exact E2|]. split; [now rewrite E3|].
  split; [|split; [|split; [|split]]].
  - intros upd upd' s' Hstep. inversion Hstep; subst.
    match goal with H : fst _ = false |- _ => now rewrite H end.
  - intros Hrej. split; [|split; [exact E1|]].
    + rewrite sieve_rejecting in E3 by exact Hrej.
      symmetry in E3. now apply app_eq_nil in E3.
    + now apply loop_drains.
  - intros upd Hl Hok.
    pose proof (MiddlewarePoller.step_call_filter p s Hl) as S1.
    rewrite Hok in S1.
    eexists. eexists. split; [exact S1|]. split; [reflexivity|].
    split.
    + apply (MiddlewarePoller.step_forward p
               (MiddlewarePoller.with_loop p s
                  (MiddlewarePoller.Sending
                     (snd (MiddlewarePoller.Filter p upd)))
                  (MiddlewarePoller.middle s) (MiddlewarePoller.stopPoller s))
               eq_refl).
    + reflexivity.
  - intros upd Hl. eexists.
    split; [exact (MiddlewarePoller.step_forward p s Hl)|].
    split; reflexivity.
  - intros Hl. now apply (loop_delivers R).
Qed.

Lemma drop_one_runs :
  steps (MiddlewarePoller.step drop_one) (MiddlewarePoller.start drop_one)
        (taken_and_judged false (update_of 1))
        (judged_state MiddlewarePoller.Select).
Proof.
  unfold taken_and_judged.
  eapply steps_cons; [solve [econstructor; try reflexivity; constructor]|].
  eapply steps_cons; [solve [econstructor; reflexivity]|].
  eapply steps_cons;
    [eapply (MiddlewarePoller.step_call_filter drop_one); reflexivity|].
  apply steps_nil.
Qed.

Lemma rewrite_one_runs :
  steps (MiddlewarePoller.step rewrite_one) (MiddlewarePoller.start rewrite_one)
        (taken_and_judged true (mkUpdate 0 EmptyString))
        (judged_state (MiddlewarePoller.Sending (mkUpdate 0 EmptyString))).
Proof.
  unfold taken_and_judged.
  eapply steps_cons; [solve [econstructor; try reflexivity; constructor]|].
  eapply steps_cons; [solve [econstructor; reflexivity]|].
  eapply steps_cons;
    [eapply (MiddlewarePoller.step_call_filter rewrite_one); reflexivity|].
  apply steps_nil.
Qed.

Lemma filter_decides_what_is_forwarded_witness :
  (steps (MiddlewarePoller.step drop_one) (MiddlewarePoller.start drop_one)
         (taken_and_judged false (update_of 1))
         (judged_state MiddlewarePoller.Select)
   /\ (forall upd, fst (MiddlewarePoller.Filter drop_one upd) = false)
   /\ Trace.relayed (taken_and_judged false (update_of 1)) = [update_of 1]
   /\ Trace.forwarded (taken_and_judged false (update_of 1)) = []
   /\ exists tr' s',
        steps (MiddlewarePoller.step drop_one)
              (judged_state MiddlewarePoller.Select) tr' s'
        /\ Trace.forwarded tr' = []
        /\ MiddlewarePoller.middle s' = [])
  /\ (steps (MiddlewarePoller.step rewrite_one)
            (MiddlewarePoller.start rewrite_one)
            (taken_and_judged true (mkUpdate 0 EmptyString))
            (judged_state (MiddlewarePoller.Sending (mkUpdate 0 EmptyString)))
      /\ (exists s',
            MiddlewarePoller.step rewrite_one
              (judged_state (MiddlewarePoller.Sending (mkUpdate 0 EmptyString)))
              (MiddlewarePoller.Forward (mkUpdate 0 EmptyString)) s'
            /\ MiddlewarePoller.loop s' = MiddlewarePoller.Select)
      /\ exists tr' s',
           steps (MiddlewarePoller.step rewrite_one)
                 (judged_state
                    (MiddlewarePoller.Sending (mkUpdate 0 EmptyString)))
                 tr' s'
           /\ Trace.forwarded
                (taken_and_judged true (mkUpdate 0 EmptyString) ++ tr')
              = sieve (MiddlewarePoller.Filter rewrite_one) [update_of 1]).
Proof.
  split.
  - pose proof (filter_decides_what_is_forwarded drop_one_runs)
      as (_ & _ & _ & Hrej & _).
    assert (Hfalse : forall upd,
               fst (MiddlewarePoller.Filter drop_one upd) = false)
      by reflexivity.
    destruct (Hrej Hfalse) as (Hnone & _ & Hdrain).
    destruct (Hdrain (or_introl eq_refl)) as (tr' & s' & R & F & _ & M & _).
    split; [exact drop_one_runs|]. split; [exact Hfalse|].
    split; [reflexivity|]. split; [exact Hnone|].
    exists tr', s'. now repeat split.
  - pose proof (filter_decides_what_is_forwarded rewrite_one_runs)
      as (_ & _ & _ & _ & _ & Hsend & Hflush).
    split; [exact rewrite_one_runs|]. split.
    + destruct (Hsend (mkUpdate 0 EmptyString) eq_refl) as (s' & S & L & _).
      exists s'. now split.
    + destruct (Hflush (or_intror (or_intror
                  (ex_intro _ (mkUpdate 0 EmptyString) eq_refl))))
        as (tr' & s' & R & _ & _ & _ & _ & _ & F).
      exists tr', s'. split; [exact R | exact F].
Defined.

(** C9: the filter is called on the update the loop has just taken
    from [middle], and what the loop sends on [dest] is the value the
    filter left behind in the loop's copy of that update, the filter
    having returned true. *)
Theorem filtered_value_is_what_is_sent :
  forall (p : MiddlewarePoller.t) tr s,
    steps (MiddlewarePoller.step p) (MiddlewarePoller.start p) tr s ->
    (forall upd ok upd' s',
        MiddlewarePoller.step p s (MiddlewarePoller.CallFilter upd ok upd') s' ->
        (exists l, Trace.relayed tr = l ++ [upd])
        /\ MiddlewarePoller.Filter p upd = (ok, upd'))
    /\ (forall upd s',
          MiddlewarePoller.step p s (MiddlewarePoller.Forward upd) s' ->
          exists l upd0,
            Trace.relayed tr = l ++ [upd0]
            /\ fst (MiddlewarePoller.Filter p upd0) = true
            /\ upd = snd (MiddlewarePoller.Filter p upd0)).
Proof.
  intros p tr s R.
  destruct (relay_accounting R) as (_ & E2 & _ & E4).
  split.
  - intros upd ok upd' s' Hstep. inversion Hstep; subst.
    match goal with H : MiddlewarePoller.loop s = _ |- _ => rewrite H in E2 end.
    split; [now exists (Trace.judged tr)|].
    now destruct (MiddlewarePoller.Filter p upd).
  - intros upd s' Hstep. inversion Hstep; subst.
    match goal with
    | H : MiddlewarePoller.loop s = _ |- _ =>
        destruct (E4 _ H) as (l & upd0 & El & Hok & Hval)
    end.
    exists l, upd0. now repeat split.
Qed.

Lemma filtered_value_is_what_is_sent_witness :
  steps (MiddlewarePoller.step rewrite_one) (MiddlewarePoller.start rewrite_one)
        (taken_and_judged true (mkUpdate 0 EmptyString))
        (judged_state (MiddlewarePoller.Sending (mkUpdate 0 EmptyString)))
  /\ MiddlewarePoller.step rewrite_one
       (judged_state (MiddlewarePoller.Sending (mkUpdate 0 EmptyString)))
       (MiddlewarePoller.Forward (mkUpdate 0 EmptyString))
       (judged_state MiddlewarePoller.Select)
  /\ Trace.relayed (taken_and_judged true (mkUpdate 0 EmptyString))
     = [update_of 1]
  /\ exists l upd0,
       Trace.relayed (taken_and_judged true (mkUpdate 0 EmptyString))
       = l ++ [upd0]
       /\ fst (MiddlewarePoller.Filter rewrite_one upd0) = true
       /\ mkUpdate 0 EmptyString = snd (MiddlewarePoller.Filter rewrite_one upd0).
Proof.
  assert (Hsend : MiddlewarePoller.step rewrite_one
            (judged_state (MiddlewarePoller.Sending (mkUpdate 0 EmptyString)))
            (MiddlewarePoller.Forward (mkUpdate 0 EmptyString))
            (judged_state MiddlewarePoller.Select)).
  { exact (MiddlewarePoller.step_forward rewrite_one
             (judged_state (MiddlewarePoller.Sending (mkUpdate 0 EmptyString)))
             eq_refl). }
  split; [exact rewrite_one_runs|]. split; [exact Hsend|].
  split; [reflexivity|].
  exact (proj2 (filtered_value_is_what_is_sent rewrite_one_runs) _ _ Hsend).
Defined.

Section Layer.

Import MiddlewarePoller.
Import Trace.

Variable p : t.

(** The steps of the wrapped poller inside a run of the middleware are
    a run of the wrapped poller. *)
Lemma inner_run tr s :
  steps (step p) (start p) tr s ->
  steps (Poller.step (Poller p)) (Poller.start (Poller p))
        (inner_actions tr) (inner s).
Proof.
  induction 1 as [|tr s l s' R IH Hstep]; [constructor|].
  rewrite inner_actions_app.
  inversion Hstep; subst; unfold with_inner, with_loop;
    cbn [inner inner_actions]; rewrite ?app_nil_r;
    solve [ exact IH | econstructor; eassumption ].
Qed.

Lemma emits_inner_actions tr : emits (inner_actions tr) = emitted tr.
Proof.
  induction tr as [|l tr IH]; [reflexivity|].
  destruct l as [[]| | | | | | | |]; cbn; now rewrite ?IH.
Qed.

Lemma emits_visible tr : emits (map visible tr) = forwarded tr.
Proof.
  induction tr as [|l tr IH]; [reflexivity|].
  destruct l; cbn; now rewrite ?IH.
Qed.

(** A run of [Poll p], seen through the interface, is a run of the two
    goroutines, and the other way round. *)
Lemma Poll_run_labels atr s :
  steps (Poller.step (Poll p)) (Poller.start (Poll p)) atr s ->
  exists tr, steps (step p) (start p) tr s /\ map visible tr = atr.
Proof.
  induction 1 as [|atr s a s' R IH Hstep].
  - exists []. split; [constructor | reflexivity].
  - destruct IH as [tr [Rtr E]]. destruct Hstep as [l [Hl Ea]].
    exists (tr ++ [l]). split; [econstructor; eassumption|].
    rewrite map_app, E. cbn. now rewrite Ea.
Qed.

Lemma labels_Poll_run tr s :
  steps (step p) (start p) tr s ->
  steps (Poller.step (Poll p)) (Poller.start (Poll p)) (map visible tr) s.
Proof.
  induction 1 as [|tr s l s' R IH Hstep]; [constructor|].
  rewrite map_app. cbn [map]. econstructor; [exact IH|].
  exists l. now split.
Qed.

Hypothesis Hfilter : transparent (Filter p).

(** Through a transparent filter, what the wrapped poller sent is what
    was sent on [dest] followed by what is on its way. *)
Lemma transparent_accounting tr s :
  steps (step p) (start p) tr s ->
  emitted tr
  = forwarded tr ++ held_accepted (loop s) ++ held_unjudged (loop s) ++ middle s.
Proof.
  intros R. destruct (relay_accounting R) as (E1 & E2 & E3 & _).
  rewrite sieve_transparent in E3 by exact Hfilter.
  rewrite E1, E2, E3. rewrite <- !app_assoc. reflexivity.
Qed.

Lemma layer_sound atr :
  traces (Poll p) atr ->
  exists atr' rest, traces (Poller p) atr' /\ emits atr' = emits atr ++ rest.
Proof.
  intros [s R]. apply Poll_run_labels in R as [tr [R <-]].
  exists (inner_actions tr).
  exists (held_accepted (loop s) ++ held_unjudged (loop s) ++ middle s).
  split; [exists (inner s); now apply inner_run|].
  rewrite emits_inner_actions, emits_visible.
  now apply transparent_accounting.
Qed.

Lemma accepted_unchanged s upd :
  loop s = Filtering upd ->
  step p s (CallFilter upd true upd)
       (with_loop p s (Sending upd) (middle s) (stopPoller s)).
Proof.
  intros H. pose proof (step_call_filter p s H) as Hstep.
  now rewrite (Hfilter upd) in Hstep.
Qed.

(** While the wrapped poller is neither stopped nor done, the
    middleware can follow it step by step and pass on every update. *)
Lemma layer_follows atr' si :
  steps (Poller.step (Poller p)) (Poller.start (Poller p)) atr' si ->
  undisturbed atr' ->
  exists tr,
    steps (step p) (start p) tr
          (mkState (Poller p) Select InPoll si [] false false)
    /\ forwarded tr = emits atr'
    /\ undisturbed (map visible tr).
Proof.
  induction 1 as [|atr' si a si' R IH Hstep]; intros [Hs Hr].
  - exists []. split; [constructor|]. split; [reflexivity|].
    split; intros [].
  - destruct IH as (tr & Rtr & Ef & Us & Ur).
    { split; intros Hin; [apply Hs | apply Hr]; apply in_or_app; now left. }
    set (s0 := mkState (Poller p) Select InPoll si [] false false) in *.
    destruct a as [upd| | |].
    + (* the wrapped poller sends: take, judge, pass on *)
      assert (S1 : step p s0 (Inner (Poller.Emit upd))
                     (with_inner p s0 InPoll si' [upd])).
      { apply (step_inner_emit p s0); [reflexivity | exact Hstep |].
        cbn. pose proof (relay_capacity_pos p). lia. }
      set (s1 := with_inner p s0 InPoll si' [upd]) in S1.
      assert (S2 : step p s1 (RecvMiddle upd)
                     (with_loop p s1 (Filtering upd) [] (stopPoller s1))).
      { now apply (step_recv_middle p s1). }
      set (s2 := with_loop p s1 (Filtering upd) [] (stopPoller s1)) in S2.
      pose proof (accepted_unchanged s2 eq_refl) as S3.
      set (s3 := with_loop p s2 (Sending upd) (middle s2) (stopPoller s2)) in S3.
      pose proof (step_forward p s3 eq_refl) as S4.
      exists (tr ++ [Inner (Poller.Emit upd); RecvMiddle upd;
                     CallFilter upd true upd; Forward upd]).
      split.
      { eapply steps_app; [exact Rtr|].
        eapply steps_cons; [exact S1|]. eapply steps_cons; [exact S2|].
        eapply steps_cons; [exact S3|]. eapply steps_cons; [exact S4|].
        apply steps_nil. }
      rewrite forwarded_app, emits_app, map_app, Ef. split; [reflexivity|].
      split; intros Hin; apply in_app_or in Hin as [Hin | Hin];
        try (now apply Us); try (now apply Ur);
        cbn in Hin; repeat destruct Hin as [Hin | Hin]; discriminate || tauto.
    + exfalso. apply Hs. apply in_or_app. right. now left.
    + (* a step inside the wrapped poller *)
      exists (tr ++ [Inner Poller.Internal]).
      split.
      { econstructor; [exact Rtr|].
        apply (step_inner_internal p s0); [reflexivity | exact Hstep]. }
      rewrite forwarded_app, emits_app, map_app, Ef. cbn. rewrite !app_nil_r.
      split; [reflexivity|].
      split; intros Hin; apply in_app_or in Hin as [Hin | Hin];
        try (now apply Us); try (now apply Ur);
        cbn in Hin; repeat destruct Hin as [Hin | Hin]; discriminate || tauto.
    + exfalso. apply Hr. apply in_or_app. right. now left.
Qed.

Lemma layer_complete atr' :
  traces (Poller p) atr' -> undisturbed atr' ->
  exists atr, traces (Poll p) atr /\ emits atr = emits atr' /\ undisturbed atr.
Proof.
  intros [si R] Hu. destruct (layer_follows R Hu) as (tr & Rtr & Ef & Hu').
  exists (map visible tr). split; [|split; [|exact Hu']].
  - eexists. apply labels_Poll_run. exact Rtr.
  - now rewrite emits_visible.
Qed.

End Layer.

Lemma nest_sound layers :
  Forall (fun layer => transparent (snd layer)) layers ->
  forall P atr,
    traces (nest layers P) atr ->
    exists atr' rest, traces P atr' /\ emits atr' = emits atr ++ rest.
Proof.
  induction 1 as [|[capacity filter] layers Hf _ IH]; intros P atr Htr.
  - exists atr, []. split; [exact Htr | now rewrite app_nil_r].
  - cbn [nest] in Htr.
    apply layer_sound in Htr as (atr1 & rest1 & Htr1 & E1); [|exact Hf].
    cbn [MiddlewarePoller.Poller] in Htr1.
    destruct (IH P atr1 Htr1) as (atr' & rest & Htr' & E).
    exists atr', (rest1 ++ rest). split; [exact Htr'|].
    now rewrite E, E1, app_assoc.
Qed.

Lemma nest_complete layers :
  Forall (fun layer => transparent (snd layer)) layers ->
  forall P atr',
    traces P atr' -> undisturbed atr' ->
    exists atr,
      traces (nest layers P) atr /\ emits atr = emits atr' /\ undisturbed atr.
Proof.
  induction 1 as [|[capacity filter] layers Hf _ IH]; intros P atr' Htr Hu.
  - exists atr'. split; [exact Htr|]. split; [reflexivity | exact Hu].
  - destruct (IH P atr' Htr Hu) as (atr1 & Htr1 & E1 & Hu1).
    cbn [nest].
    destruct (@layer_complete
                (MiddlewarePoller.mk capacity (nest layers P) filter)
                Hf atr1 Htr1 Hu1) as (atr & Htr' & E & Hu').
    exists atr. split; [exact Htr'|]. split; [now rewrite E | exact Hu'].
Qed.

(** C7 (amended): a middleware whose filter always returns true and
    leaves the update as it was passes on the stream of the wrapped
    poller unchanged: what reached [dest], followed by what the loop
    holds and what [middle] holds, is at every moment what the wrapped
    poller sent, in the same order; through any number of such
    middlewares the updates at the outermost [dest] are a run of the
    innermost poller, cut short by what is on its way; and as long as the
    innermost poller is neither stopped nor done, every run of it reaches
    the outermost [dest] whole. *)
Theorem transparent_middleware_passes_stream_on :
  (forall (p : MiddlewarePoller.t) tr s,
      transparent (MiddlewarePoller.Filter p) ->
      steps (MiddlewarePoller.step p) (MiddlewarePoller.start p) tr s ->
      Trace.emitted tr
      = Trace.forwarded tr
          ++ held_accepted (MiddlewarePoller.loop s)
          ++ held_unjudged (MiddlewarePoller.loop s)
          ++ MiddlewarePoller.middle s)
  /\ (forall layers P atr,
        Forall (fun layer => transparent (snd layer)) layers ->
        traces (nest layers P) atr ->
        exists atr' rest, traces P atr' /\ emits atr' = emits atr ++ rest)
  /\ (forall layers P atr',
        Forall (fun layer => transparent (snd layer)) layers ->
        traces P atr' -> undisturbed atr' ->
        exists atr,
          traces (nest layers P) atr
          /\ emits atr = emits atr' /\ undisturbed atr).
Proof.
  split; [|split].
  - intros p tr s Hf R. now apply transparent_accounting.
  - intros layers P atr Hf Htr. now apply (nest_sound Hf).
  - intros layers P atr' Hf Htr Hu. now apply (nest_complete Hf).
Qed.

Lemma transparent_middleware_passes_stream_on_witness :
  (transparent (MiddlewarePoller.Filter relay_one)
   /\ steps (MiddlewarePoller.step relay_one) (MiddlewarePoller.start relay_one)
            relay_and_stop stopped_state
   /\ Trace.emitted relay_and_stop = Trace.forwarded relay_and_stop ++ [])
  /\ exists atr,
       traces (nest [(0, accept_all); (3, accept_all)] (scripted [update_of 1]))
              atr
       /\ emits atr = [update_of 1]
       /\ exists atr' rest,
            traces (scripted [update_of 1]) atr'
            /\ emits atr' = emits atr ++ rest.
Proof.
  destruct transparent_middleware_passes_stream_on as (Hone & Hsound & Hcomplete).
  assert (Hf : Forall (fun layer : Z * (Update -> bool * Update) =>
                         transparent (snd layer))
                      [(0, accept_all); (3, accept_all)]).
  { repeat constructor. }
  assert (Hplay : traces (scripted [update_of 1]) [Poller.Emit (update_of 1)]).
  { exists (Playing []). change [Poller.Emit (update_of 1)]
      with ([] ++ [Poller.Emit (update_of 1)]).
    econstructor; [constructor | constructor]. }
  assert (Hu : undisturbed [Poller.Emit (update_of 1)]).
  { split; intros [H | []]; discriminate H. }
  split.
  - split; [intros upd; reflexivity|]. split; [exact relay_and_stop_runs|].
    exact (Hone relay_one _ _ (fun upd => eq_refl) relay_and_stop_runs).
  - destruct (Hcomplete _ _ _ Hf Hplay Hu) as (atr & Htr & E & _).
    exists atr. split; [exact Htr|]. split; [exact E|].
    exact (Hsound _ _ _ Hf Htr).
Defined.

Lemma scripted_emits l atr s :
  steps script_step (Playing l) atr s ->
  (forall x, In x (emits atr) -> In x l)
  /\ (forall rest, s = Playing rest -> forall x, In x rest -> In x l).
Proof.
  induction 1 as [|atr s a s' R [IH1 IH2] Hstep].
  - split; [intros x [] | intros rest E; now injection E as <-].
  - inversion Hstep; subst; rewrite emits_app; cbn [emits]; split.
    + intros x Hin. apply in_app_or in Hin as [Hin | [<- | []]].
      * now apply IH1.
      * apply (IH2 _ eq_refl). now left.
    + intros rest' E. injection E as <-. intros x Hin.
      apply (IH2 _ eq_refl). now right.
    + intros x Hin. apply in_app_or in Hin as [Hin | []]. now apply IH1.
    + intros rest' E. discriminate E.
    + intros x Hin. apply in_app_or in Hin as [Hin | []]. now apply IH1.
    + intros rest' E. discriminate E.
Qed.

(** C7 as stated fails: a filter that always returns true may write
    through its pointer.  Here it sets the id to 0: the update the
    wrapped poller sent with id 1 reaches [dest] with id 0, which no run
    of the wrapped poller alone can deliver. *)
Lemma rewriting_filter_changes_the_stream :
  (forall upd, fst (MiddlewarePoller.Filter rewrite_one upd) = true)
  /\ (exists atr,
        traces (MiddlewarePoller.Poll rewrite_one) atr
        /\ emits atr = [mkUpdate 0 EmptyString])
  /\ (forall atr',
        traces (MiddlewarePoller.Poller rewrite_one) atr' ->
        ~ In (mkUpdate 0 EmptyString) (emits atr')).
Proof.
  split; [reflexivity|]. split.
  - exists (map MiddlewarePoller.visible
             (taken_and_judged true (mkUpdate 0 EmptyString)
                ++ [MiddlewarePoller.Forward (mkUpdate 0 EmptyString)])).
    split; [|reflexivity].
    exists (judged_state MiddlewarePoller.Select).
    apply labels_Poll_run. econstructor; [exact rewrite_one_runs|].
    exact (MiddlewarePoller.step_forward rewrite_one
             (judged_state (MiddlewarePoller.Sending (mkUpdate 0 EmptyString)))
             eq_refl).
  - intros atr' [s R] Hin.
    destruct (scripted_emits R) as [Hsub _]. apply Hsub in Hin.
    destruct Hin as [H | []]. discriminate H.
Qed.

(** * Further properties *)

(** ** AllowedUpdates *)

(** X1: [Add] appends its arguments after the names the collection
    holds, dropping and merging none; its result is the nil slice only
    for the nil slice with nothing added; and two calls in a row add what
    one call with both argument lists adds. *)
Theorem Add_appends_and_composes :
  forall (u : AllowedUpdates.t) (a b : list string),
    names_of (AllowedUpdates.Add u a) = names_of u ++ a
    /\ (AllowedUpdates.Add u a = None <-> u = None /\ a = [])
    /\ AllowedUpdates.Add (AllowedUpdates.Add u a) b
       = AllowedUpdates.Add u (a ++ b).
Proof.
  intros u a b. split; [|split].
  - destruct u as [l|], a; reflexivity.
  - destruct u as [l|], a; cbn; split;
      try discriminate; try (intros [H1 H2]; discriminate); auto.
  - destruct u as [l|]; [|destruct a as [|x a]].
    + rewrite !Add_non_nil. now rewrite app_assoc.
    + reflexivity.
    + reflexivity.
Qed.

Lemma rendered_element_starts_with_quote (s : string) :
  exists rest,
    removeByte Json.backslash (Json.appendString s) = String Json.dquote rest.
Proof.
  unfold Json.appendString. cbn [removeByte].
  change (Ascii.eqb Json.dquote Json.backslash) with false. cbv iota.
  eexists. reflexivity.
Qed.

(** X2: the text is [null] for the nil slice and for no other
    collection, and is the empty array text for the empty slice and for
    no other collection. *)
Theorem String_null_and_empty :
  forall u : AllowedUpdates.t,
    (AllowedUpdates.String u = "null"%string <-> u = None)
    /\ (AllowedUpdates.String u = "[]"%string <-> u = Some []).
Proof.
  intros [l|]; split; split; intros H;
    try reflexivity; try discriminate H.
  - rewrite String_elements in H. destruct l as [|s l]; [reflexivity|].
    exfalso. destruct (rendered_element_starts_with_quote s) as [rest E].
    cbn [map] in H. rewrite E in H.
    destruct l as [|s' l]; cbn [comma_separated map String.append] in H;
      discriminate H.
  - injection H as ->. reflexivity.
Qed.

Lemma literal_byte_ascii c :
  literal_byte c = true -> (N_of_ascii c <? 128)%N = true.
Proof.
  unfold literal_byte. intros H.
  apply orb_prop in H as [H | H]; [apply orb_prop in H as [H | H]|].
  - now apply htmlSafe_ascii.
  - apply N.eqb_eq in H. now rewrite H.
  - apply N.eqb_eq in H. now rewrite H.
Qed.

Lemma rendered_literal_byte c :
  literal_byte c = true ->
  removeByte Json.backslash
    (if Json.htmlSafe (N_of_ascii c) then String c EmptyString
     else Json.escapeByte c)
  = removeByte Json.backslash (String c EmptyString).
Proof.
  intros H. destruct (Json.htmlSafe (N_of_ascii c)) eqn:Hs; [reflexivity|].
  unfold literal_byte in H. rewrite Hs in H. cbn [orb] in H.
  unfold Json.escapeByte. cbv zeta.
  apply orb_prop in H as [H | H]; apply N.eqb_eq in H.
  - assert (c = Json.dquote) as ->.
    { rewrite <- (ascii_N_embedding c), H. reflexivity. }
    reflexivity.
  - assert (c = Json.backslash) as ->.
    { rewrite <- (ascii_N_embedding c), H. reflexivity. }
    reflexivity.
Qed.

Lemma rendered_literal_body (s : string) :
  literal s = true -> forall fuel, (String.length s <= fuel)%nat ->
  removeByte Json.backslash (Json.appendBody fuel s)
  = removeByte Json.backslash s.
Proof.
  induction s as [|c s IH]; intros Hs fuel Hf.
  - now destruct fuel.
  - cbn in Hs. apply andb_prop in Hs as [Hc Hs].
    destruct fuel as [|fuel]; [cbn in Hf; lia|].
    cbn [Json.appendBody]. cbv zeta.
    rewrite (literal_byte_ascii _ Hc), removeByte_app.
    rewrite (rendered_literal_byte _ Hc).
    rewrite IH by (try assumption; cbn in Hf; lia).
    change (String c s) with (String c EmptyString ++ s)%string.
    now rewrite removeByte_app.
Qed.

Lemma rendered_literal (s : string) :
  literal s = true ->
  removeByte Json.backslash (Json.appendString s)
  = in_quotes (removeByte Json.backslash s).
Proof.
  intros Hs. unfold Json.appendString, in_quotes.
  cbn [removeByte].
  change (Ascii.eqb Json.dquote Json.backslash) with false. cbv iota.
  rewrite removeByte_app, rendered_literal_body by (auto with arith).
  reflexivity.
Qed.

Lemma rendered_literals (l : list string) :
  forallb literal l = true ->
  map (fun s => removeByte Json.backslash (Json.appendString s)) l
  = map (fun s => in_quotes (removeByte Json.backslash s)) l.
Proof.
  induction l as [|s l IH]; [reflexivity|]. intros Hl.
  cbn in Hl. apply andb_prop in Hl as [Hs Hl].
  cbn [map]. now rewrite rendered_literal, IH.
Qed.

(** X3: in a name made of bytes that need no escape, double quotes and
    backslashes, the double quotes reach the text unescaped and the
    backslashes are gone: the name stands between double quotes without
    its backslashes. *)
Theorem String_drops_backslashes_of_names :
  forall l : list string,
    forallb literal l = true ->
    AllowedUpdates.String (Some l)
    = ("[" ++ comma_separated
                (map (fun s => in_quotes (removeByte Json.backslash s)) l)
           ++ "]")%string.
Proof.
  intros l Hl. now rewrite String_elements, rendered_literals.
Qed.

Lemma String_drops_backslashes_of_names_witness :
  forallb literal [String Json.backslash "poll"; "foo"]%string = true
  /\ AllowedUpdates.String (Some [String Json.backslash "poll"; "foo"]%string)
     = AllowedUpdates.String (Some ["poll"; "foo"]%string).
Proof.
  split; [reflexivity|].
  rewrite (String_drops_backslashes_of_names
             [String Json.backslash "poll"; "foo"]%string eq_refl).
  reflexivity.
Defined.

Lemma plain_literal (s : string) : plain s = true -> literal s = true.
Proof.
  induction s as [|c s IH]; [reflexivity|]. cbn. intros H.
  apply andb_prop in H as [Hc Hs]. unfold literal_byte.
  now rewrite Hc, IH.
Qed.

Lemma literal_app (a b : string) :
  literal (a ++ b) = literal a && literal b.
Proof.
  induction a as [|c a IH]; [reflexivity|].
  cbn. now rewrite IH, andb_assoc.
Qed.

(** X4: the text does not tell collections apart.  For names [a] and
    [b] that need no escape, the single name made of [a], a double quote,
    a comma, a double quote and [b] is rendered as the two names [a] and
    [b] are. *)
Theorem String_merges_distinct_collections :
  forall a b : string,
    plain a = true -> plain b = true ->
    [(a ++ String Json.dquote ("," ++ String Json.dquote b))%string] <> [a; b]
    /\ AllowedUpdates.String
         (Some [(a ++ String Json.dquote ("," ++ String Json.dquote b))%string])
       = AllowedUpdates.String (Some [a; b]).
Proof.
  intros a b Ha Hb. split; [discriminate|].
  rewrite String_elements, rendered_literals.
  - rewrite (String_elements [a; b]), String_plain_elements
      by (cbn; now rewrite Ha, Hb).
    cbn [map comma_separated]. do 2 f_equal.
    rewrite removeByte_app, (removeByte_plain _ Ha).
    cbn [removeByte String.append].
    change (Ascii.eqb Json.dquote Json.backslash) with false.
    change (Ascii.eqb ","%char Json.backslash) with false. cbv iota.
    rewrite (removeByte_plain _ Hb).
    unfold in_quotes. cbn [String.append].
    rewrite !string_app_assoc. reflexivity.
  - cbn [forallb]. rewrite literal_app, (plain_literal _ Ha). cbn.
    now rewrite (plain_literal _ Hb).
Qed.

Lemma String_merges_distinct_collections_witness :
  plain "poll" = true /\ plain "foo" = true
  /\ AllowedUpdates.String
       (Some [("poll" ++ String Json.dquote ("," ++ String Json.dquote "foo"))%string])
     = AllowedUpdates.String (Some ["poll"; "foo"]%string).
Proof.
  split; [reflexivity|]. split; [reflexivity|].
  exact (proj2 (String_merges_distinct_collections "poll" "foo" eq_refl eq_refl)).
Defined.

(** ** LongPoller *)

Section LongPollerSettings.

Import LongPoller.

Variables (b : Bot) (stop : nat -> bool).

Lemma dispatch_events_are_sends updates loads p (Q : event -> Prop) :
  (forall update, Q (SendNextUpdate update)) ->
  (forall update, Q (SendDest update)) ->
  Forall Q (snd (dispatch b loads updates p)).
Proof.
  intros Hn Hd. apply Forall_forall. intros e Hin.
  apply dispatch_sends_only in Hin as [update [-> | ->]]; auto.
Qed.

(** X5: a run of [Poll] changes no setting of the poller but
    [LastUpdateID]: every fetch of the run is made with the limit, the
    timeout and the allowed updates the poller started with, and the
    poller has them at the end. *)
Theorem Poll_keeps_its_settings fuel k loads p :
  Limit (poller_of (Poll fuel b stop k loads p)) = Limit p
  /\ Timeout (poller_of (Poll fuel b stop k loads p)) = Timeout p
  /\ AllowedUpdates (poller_of (Poll fuel b stop k loads p)) = AllowedUpdates p
  /\ Forall (fetch_with_settings p) (events_of (Poll fuel b stop k loads p)).
Proof.
  revert fuel k loads p.
  apply (Poll_ind b stop
           (fun _ _ p r =>
              Limit (poller_of r) = Limit p
              /\ Timeout (poller_of r) = Timeout p
              /\ AllowedUpdates (poller_of r) = AllowedUpdates p
              /\ Forall (fetch_with_settings p) (events_of r))).
  - intros k loads p. cbn. repeat split. constructor.
  - intros k loads p _. cbn. repeat split. repeat constructor.
  - intros k loads p err r _ _ (H1 & H2 & H3 & H4).
    cbn [poller_of events_of fst snd]. repeat split; try assumption.
    constructor; [cbn; now repeat split|]. constructor; [exact I | exact H4].
  - intros k loads p updates r _ _ (H1 & H2 & H3 & H4).
    rewrite dispatch_poller in H1, H2, H3, H4.
    cbn [poller_of events_of fst snd Limit Timeout AllowedUpdates
         set_LastUpdateID] in *.
    repeat split; try assumption.
    constructor; [cbn; now repeat split|].
    apply Forall_app. split.
    + apply dispatch_events_are_sends; intros; exact I.
    + eapply Forall_impl; [|exact H4]. intros [] He; exact He.
Qed.

End LongPollerSettings.


Section LongPollerReports.

Import LongPoller.

Variables (b : Bot) (stop : nat -> bool).

Lemma fetch_event_result k p result :
  fetch_result b k p = result ->
  fetch_event b k p
  = GetUpdates (GoInt.add (LastUpdateID p) 1) (Limit p) (Timeout p)
               (AllowedUpdates p) result.
Proof. intros <-. reflexivity. Qed.

(** X6: the debug hook is called only for a fetch that has just failed,
    with the error of that fetch, and every failed fetch is followed at
    once by its call of the hook. *)
Theorem Debug_follows_failed_fetch fuel k loads p :
  (forall es1 err es2,
      events_of (Poll fuel b stop k loads p) = es1 ++ Debug err :: es2 ->
      exists es0 offset limit timeout allowed,
        es1 = es0 ++ [GetUpdates offset limit timeout allowed (inl err)])
  /\ (forall es1 offset limit timeout allowed err es2,
        events_of (Poll fuel b stop k loads p)
        = es1 ++ GetUpdates offset limit timeout allowed (inl err) :: es2 ->
        exists es3, es2 = Debug err :: es3).
Proof.
  revert fuel k loads p.
  apply (Poll_ind b stop
           (fun _ _ _ r =>
              (forall es1 err es2,
                  events_of r = es1 ++ Debug err :: es2 ->
                  exists es0 offset limit timeout allowed,
                    es1 = es0 ++ [GetUpdates offset limit timeout allowed (inl err)])
              /\ (forall es1 offset limit timeout allowed err es2,
                    events_of r
                    = es1 ++ GetUpdates offset limit timeout allowed (inl err) :: es2 ->
                    exists es3, es2 = Debug err :: es3))).
  - intros k loads p. split; intros es1; intros; now destruct es1.
  - intros k loads p _. split; intros es1; intros;
      destruct es1 as [|e [|e' es1]]; discriminate.
  - intros k loads p err0 r _ Ef [IH1 IH2].
    rewrite (fetch_event_result _ _ Ef). cbn [events_of fst snd]. split.
    + intros es1 err es2 E. destruct es1 as [|e [|e' es1]].
      * discriminate E.
      * cbn in E. injection E as <- <- _.
        now exists [], (GoInt.add (LastUpdateID p) 1), (Limit p),
                   (Timeout p), (AllowedUpdates p).
      * cbn in E. injection E as <- <- E.
        destruct (IH1 _ _ _ E) as (es0 & o & l & t & a & ->).
        now exists (GetUpdates (GoInt.add (LastUpdateID p) 1) (Limit p)
                      (Timeout p) (AllowedUpdates p) (inl err0)
                    :: Debug err0 :: es0), o, l, t, a.
    + intros es1 offset limit timeout allowed err es2 E.
      destruct es1 as [|e [|e' es1]].
      * cbn in E. injection E as _ _ _ _ <- <-. now exists (events_of r).
      * discriminate E.
      * cbn in E. injection E as <- <- E. exact (IH2 _ _ _ _ _ _ _ E).
  - intros k loads p updates r _ Ef [IH1 IH2].
    rewrite (fetch_event_result _ _ Ef). cbn [events_of fst snd]. split.
    + intros es1 err es2 E. destruct es1 as [|e es1]; [discriminate E|].
      cbn in E. injection E as <- E. symmetry in E.
      apply app_split_middle in E as [Hin | [l [-> E]]].
      { apply (dispatch_sends_only b stop) in Hin as [update [H | H]]; discriminate H. }
      symmetry in E. destruct (IH1 _ _ _ E) as (es0 & o & li & t & a & ->).
      exists (GetUpdates (GoInt.add (LastUpdateID p) 1) (Limit p)
                (Timeout p) (AllowedUpdates p) (inr updates)
              :: snd (dispatch b loads updates p) ++ es0), o, li, t, a.
      cbn. now rewrite app_assoc.
    + intros es1 offset limit timeout allowed err es2 E.
      destruct es1 as [|e es1]; [discriminate E|].
      cbn in E. injection E as <- E. symmetry in E.
      apply app_split_middle in E as [Hin | [l [-> E]]].
      { apply (dispatch_sends_only b stop) in Hin as [update [H | H]]; discriminate H. }
      symmetry in E. exact (IH2 _ _ _ _ _ _ _ E).
Qed.

End LongPollerReports.

Lemma Debug_follows_failed_fetch_witness :
  events_of (LongPoller.Poll 2 flaky_source never_stop 0 0 fresh_poller)
  = [GetUpdates 1 100 10 EmptyString (inl "timeout"%string)]
      ++ Debug "timeout"%string
      :: [GetUpdates 1 100 10 EmptyString (inr [update_of 1]);
          SendNextUpdate (update_of 1)]
  /\ exists es0 offset limit timeout allowed,
       [GetUpdates 1 100 10 EmptyString (inl "timeout"%string)]
       = es0 ++ [GetUpdates offset limit timeout allowed (inl "timeout"%string)].
Proof.
  split; [reflexivity|].
  exact (proj1 (Debug_follows_failed_fetch flaky_source never_stop 2 0 0
                  fresh_poller)
           [GetUpdates 1 100 10 EmptyString (inl "timeout"%string)]
           "timeout"%string
           [GetUpdates 1 100 10 EmptyString (inr [update_of 1]);
            SendNextUpdate (update_of 1)]
           eq_refl).
Defined.

Section LastOfBatch.

Import LongPoller.

Variable b : Bot.

(** The id a batch that is not empty leaves in [LastUpdateID] is an id
    of the batch: at or above the offset of the fetch, and an [int]
    below the largest. *)
Lemma last_of_batch k p updates :
  honours_offset b -> ids_below_max b ->
  fetch_result b k p = inr updates ->
  updates = []
  \/ (GoInt.add (LastUpdateID p) 1 <= last (map ID updates) (LastUpdateID p)
      /\ GoInt.min_int <= last (map ID updates) (LastUpdateID p)
         < GoInt.max_int).
Proof.
  intros Hoff Hmax E. unfold fetch_result in E.
  pose proof (Hoff _ _ _ _ _ _ E) as Hge. pose proof (Hmax _ _ _ _ _ _ E) as Hlt.
  destruct (last_default_or_In (map ID updates) (LastUpdateID p))
    as [[En _] | Hin].
  - left. now destruct updates.
  - right. apply in_map_iff in Hin as [x [Ex Hx]]. rewrite <- Ex.
    rewrite Forall_forall in Hge, Hlt.
    specialize (Hge _ Hx). specialize (Hlt _ Hx). cbv beta in *. lia.
Qed.

End LastOfBatch.

Section NoRedelivery.

Import LongPoller.

Variables (b : Bot) (stop : nat -> bool).

Hypothesis Hoff : honours_offset b.
Hypothesis Hmax : ids_below_max b.

(** Whatever [LastUpdateID] a run starts with, every update it writes
    has an id at or above the offset of its first fetch. *)
Lemma Poll_at_or_above_next :
  forall fuel k loads p,
    Forall (fun u => GoInt.add (LastUpdateID p) 1 <= ID u)
           (combined (events_of (Poll fuel b stop k loads p))).
Proof.
  induction fuel as [|fuel IH]; intros k loads p; [constructor|].
  destruct (stop k) eqn:Es.
  { rewrite Poll_stop by assumption. constructor. }
  destruct (fetch_result b k p) as [err|updates] eqn:Ef.
  { erewrite Poll_error by eassumption. cbn. apply IH. }
  erewrite Poll_batch by eassumption. cbv zeta.
  cbn [events_of poller_of fst snd combined fetch_event].
  rewrite combined_app, dispatch_combined.
  apply Forall_app. split.
  { exact (Hoff k _ (Limit p) (Timeout p) (AllowedUpdates p) Ef). }
  assert (E1 : LastUpdateID (fst (dispatch b loads updates p))
               = last (map ID updates) (LastUpdateID p))
    by now rewrite dispatch_poller.
  destruct (last_of_batch k p Hoff Hmax Ef) as [En | [Hge Hp1]].
  - pose proof (IH (S k) (loads + List.length updates)%nat
                  (fst (dispatch b loads updates p))) as IH1.
    assert (E0 : last (map ID updates) (LastUpdateID p) = LastUpdateID p)
      by now rewrite En.
    rewrite E1, E0 in IH1. exact IH1.
  - rewrite <- E1 in Hge, Hp1.
    destruct (@Poll_above b stop fuel (S k)
                (loads + List.length updates)%nat
                (fst (dispatch b loads updates p)) Hoff Hmax Hp1)
      as [Hab1 _].
    eapply Forall_impl; [|exact Hab1]. cbv beta. intros; lia.
Qed.

(** No update written after a fetch has an id below the offset of that
    fetch, whatever [LastUpdateID] the run starts with. *)
Lemma Poll_after_fetch :
  forall fuel k loads p es1 offset limit timeout allowed result es2,
    events_of (Poll fuel b stop k loads p)
    = es1 ++ GetUpdates offset limit timeout allowed result :: es2 ->
    Forall (fun u => offset <= ID u) (combined es2).
Proof.
  induction fuel as [|fuel IH]; intros k loads p
    es1 offset limit timeout allowed result es2 E.
  { now destruct es1. }
  destruct (stop k) eqn:Es.
  { rewrite Poll_stop in E by assumption.
    destruct es1 as [|e [|e' es1]]; discriminate E. }
  pose proof (Poll_at_or_above_next (S fuel) k loads p) as Hnext.
  destruct (fetch_result b k p) as [err|updates] eqn:Ef.
  - erewrite Poll_error in E by eassumption.
    erewrite Poll_error in Hnext by eassumption.
    rewrite (fetch_event_result _ _ _ Ef) in E. cbn [events_of fst snd] in E.
    destruct es1 as [|e [|e' es1]].
    + cbn in E. injection E as <- _ _ _ _ <-. exact Hnext.
    + discriminate E.
    + cbn in E. injection E as _ _ E. now apply IH in E.
  - erewrite Poll_batch in E by eassumption.
    erewrite Poll_batch in Hnext by eassumption.
    rewrite (fetch_event_result _ _ _ Ef) in E. cbn [events_of fst snd] in E.
    destruct es1 as [|e es1].
    + cbn in E. injection E as <- _ _ _ _ <-. exact Hnext.
    + cbn in E. injection E as _ E. symmetry in E.
      apply app_split_middle in E as [Hin | [l [_ E]]].
      { apply (dispatch_sends_only b stop) in Hin as [update [H | H]];
          discriminate H. }
      symmetry in E. now apply IH in E.
Qed.

(** Where [LastUpdateID] starts as an [int] below the largest, every
    fetch of the run asks for an offset above it. *)
Lemma Poll_offsets_above_start :
  forall fuel k loads p,
    GoInt.min_int <= LastUpdateID p < GoInt.max_int ->
    forall es1 offset limit timeout allowed result es2,
      events_of (Poll fuel b stop k loads p)
      = es1 ++ GetUpdates offset limit timeout allowed result :: es2 ->
      LastUpdateID p < offset.
Proof.
  induction fuel as [|fuel IH]; intros k loads p Hp
    es1 offset limit timeout allowed result es2 E.
  { now destruct es1. }
  destruct (stop k) eqn:Es.
  { rewrite Poll_stop in E by assumption.
    destruct es1 as [|e [|e' es1]]; discriminate E. }
  destruct (fetch_result b k p) as [err|updates] eqn:Ef.
  - erewrite Poll_error in E by eassumption.
    rewrite (fetch_event_result _ _ _ Ef) in E. cbn [events_of fst snd] in E.
    destruct es1 as [|e [|e' es1]].
    + cbn in E. injection E as <- _ _ _ _ _.
      rewrite GoInt_add_1 by exact Hp. lia.
    + discriminate E.
    + cbn in E. injection E as _ _ E.
      now apply (IH _ _ _ Hp) in E.
  - erewrite Poll_batch in E by eassumption.
    rewrite (fetch_event_result _ _ _ Ef) in E. cbn [events_of fst snd] in E.
    destruct (dispatch_advances k loads p Hoff Hmax Hp Ef) as [Hle Hp1].
    destruct es1 as [|e es1].
    + cbn in E. injection E as <- _ _ _ _ _.
      rewrite GoInt_add_1 by exact Hp. lia.
    + cbn in E. injection E as _ E. symmetry in E.
      apply app_split_middle in E as [Hin | [l [_ E]]].
      { apply (dispatch_sends_only b stop) in Hin as [update [H | H]];
          discriminate H. }
      symmetry in E. apply (IH _ _ _ Hp1) in E. lia.
Qed.

(** X7: where the source never returns an id below the requested
    offset nor the largest [int], no update written after a fetch has an
    id below the offset of that fetch, whatever [LastUpdateID] the run
    starts with: what the poller has moved past is not delivered again.
    Where [LastUpdateID] starts as an [int] below the largest, every
    fetch of the run moreover asks for an offset above it. *)
Theorem Poll_stays_at_or_above_offset :
  forall fuel k loads p es1 offset limit timeout allowed result es2,
    events_of (Poll fuel b stop k loads p)
    = es1 ++ GetUpdates offset limit timeout allowed result :: es2 ->
    Forall (fun u => offset <= ID u) (combined es2)
    /\ (GoInt.min_int <= LastUpdateID p < GoInt.max_int ->
        LastUpdateID p < offset).
Proof.
  intros fuel k loads p es1 offset limit timeout allowed result es2 E.
  split.
  - eapply Poll_after_fetch; exact E.
  - intros Hp. eapply Poll_offsets_above_start; [exact Hp | exact E].
Qed.

End NoRedelivery.

Lemma Poll_stays_at_or_above_offset_witness :
  honours_offset orderly_source
  /\ ids_below_max orderly_source
  /\ events_of (LongPoller.Poll 2 orderly_source never_stop 0 0 fresh_poller)
     = [GetUpdates 1 100 10 EmptyString (inr [update_of 1; update_of 2]);
        SendDest (update_of 1); SendNextUpdate (update_of 2)]
         ++ GetUpdates 3 100 10 EmptyString (inr [update_of 3; update_of 4])
         :: [SendDest (update_of 3); SendDest (update_of 4)]
  /\ Forall (fun u => 3 <= ID u)
            (combined [SendDest (update_of 3); SendDest (update_of 4)])
  /\ LongPoller.LastUpdateID fresh_poller < 3.
Proof.
  split; [exact orderly_source_honours_offset|].
  split; [exact orderly_source_below_max|].
  split; [reflexivity|].
  destruct (@Poll_stays_at_or_above_offset orderly_source never_stop
              orderly_source_honours_offset orderly_source_below_max
              2%nat 0%nat 0%nat fresh_poller
              [GetUpdates 1 100 10 EmptyString
                 (inr [update_of 1; update_of 2]);
               SendDest (update_of 1); SendNextUpdate (update_of 2)]
              3 100 10 EmptyString (inr [update_of 3; update_of 4])
              [SendDest (update_of 3); SendDest (update_of 4)]
              eq_refl) as [Hall Hstart].
  split; [exact Hall | exact (Hstart fresh_poller_in_range)].
Defined.

Section StrictOrder.

Lemma StronglySorted_lt_le (l : list Z) :
  StronglySorted Z.lt l -> StronglySorted Z.le l.
Proof.
  induction 1 as [|x l Hl IH Hx]; constructor; [exact IH|].
  eapply Forall_impl; [|exact Hx]. cbv beta. intros; lia.
Qed.

Lemma StronglySorted_lt_app (l1 l2 : list Z) :
  StronglySorted Z.lt l1 -> StronglySorted Z.lt l2 ->
  (forall x y, In x l1 -> In y l2 -> x < y) ->
  StronglySorted Z.lt (l1 ++ l2).
Proof.
  induction 1 as [|x l1 Hl1 IH Hx]; intros H2 Hlt; [exact H2|].
  cbn. constructor.
  - apply IH; [exact H2|]. intros a c Ha Hc. apply Hlt; [now right | exact Hc].
  - apply Forall_app. split; [exact Hx|].
    apply Forall_forall. intros y Hy. apply Hlt; [now left | exact Hy].
Qed.

Lemma StronglySorted_lt_NoDup (l : list Z) :
  StronglySorted Z.lt l -> NoDup l.
Proof.
  induction 1 as [|x l Hl IH Hx]; constructor; [|exact IH].
  intros Hin. rewrite Forall_forall in Hx. specialize (Hx _ Hin). lia.
Qed.

End StrictOrder.

Section NoDuplicates.

Import LongPoller.

Variables (b : Bot) (stop : nat -> bool).

Hypothesis Hoff : honours_offset b.
Hypothesis Hinc : batches_increasing b.
Hypothesis Hmax : ids_below_max b.

Lemma Poll_increasing :
  forall fuel k loads p,
    StronglySorted Z.lt
      (map ID (combined (events_of (Poll fuel b stop k loads p)))).
Proof.
  induction fuel as [|fuel IH]; intros k loads p; [constructor|].
  destruct (stop k) eqn:Es.
  { rewrite Poll_stop by assumption. constructor. }
  destruct (fetch_result b k p) as [err|updates] eqn:Ef.
  { erewrite Poll_error by eassumption. cbn. now apply IH. }
  erewrite Poll_batch by eassumption. cbv zeta.
  cbn [events_of poller_of fst snd combined fetch_event].
  rewrite combined_app, dispatch_combined, map_app.
  pose proof (Hinc k _ (Limit p) (Timeout p) (AllowedUpdates p) Ef) as Hso.
  apply StronglySorted_lt_app; [exact Hso | now apply IH |].
  intros x y Hx Hy.
  destruct (last_of_batch k p Hoff Hmax Ef) as [-> | [_ Hp1]];
    [destruct Hx|].
  pose proof (StronglySorted_le_last (LastUpdateID p)
                (StronglySorted_lt_le Hso)) as Hlast.
  rewrite Forall_forall in Hlast. specialize (Hlast _ Hx).
  assert (E1 : LastUpdateID (fst (dispatch b loads updates p))
               = last (map ID updates) (LastUpdateID p))
    by now rewrite dispatch_poller.
  rewrite <- E1 in Hp1, Hlast.
  destruct (@Poll_above b stop fuel (S k)
              (loads + List.length updates)%nat
              (fst (dispatch b loads updates p)) Hoff Hmax Hp1)
    as [Hab1 _].
  rewrite Forall_forall in Hab1.
  apply in_map_iff in Hy as [uy [Ey Hy]]. specialize (Hab1 _ Hy).
  cbv beta in Hab1. lia.
Qed.

(** X8: where the source never returns an id below the requested
    offset nor the largest [int] and returns every batch in increasing
    order of id, the ids written over a run increase, whatever
    [LastUpdateID] the run starts with: no id is written twice, on
    either channel. *)
Theorem Poll_writes_no_id_twice :
  forall fuel k loads p,
    StronglySorted Z.lt
      (map ID (combined (events_of (Poll fuel b stop k loads p))))
    /\ NoDup (map ID (combined (events_of (Poll fuel b stop k loads p)))).
Proof.
  intros fuel k loads p.
  pose proof (Poll_increasing fuel k loads p) as H.
  split; [exact H | now apply StronglySorted_lt_NoDup].
Qed.

End NoDuplicates.

Lemma orderly_source_increasing : batches_increasing orderly_source.
Proof.
  intros k offset limit timeout allowed updates. cbn.
  destruct (_ && _); intros E; injection E as <-; repeat constructor; cbn; lia.
Qed.

Lemma Poll_writes_no_id_twice_witness :
  honours_offset orderly_source
  /\ batches_increasing orderly_source
  /\ ids_below_max orderly_source
  /\ NoDup (map ID (combined (events_of
       (LongPoller.Poll 3 orderly_source never_stop 0 0 fresh_poller))))
  /\ NoDup (map ID (combined (events_of
       (LongPoller.Poll 3 orderly_source never_stop 0 0
          (LongPoller.set_LastUpdateID GoInt.max_int fresh_poller))))).
Proof.
  split; [exact orderly_source_honours_offset|].
  split; [exact orderly_source_increasing|].
  split; [exact orderly_source_below_max|].
  split.
  - exact (proj2 (@Poll_writes_no_id_twice orderly_source never_stop
                    orderly_source_honours_offset orderly_source_increasing
                    orderly_source_below_max 3%nat 0%nat 0%nat fresh_poller)).
  - exact (proj2 (@Poll_writes_no_id_twice orderly_source never_stop
                    orderly_source_honours_offset orderly_source_increasing
                    orderly_source_below_max 3%nat 0%nat 0%nat
                    (LongPoller.set_LastUpdateID GoInt.max_int fresh_poller))).
Defined.

Section FlagValues.

Import LongPoller.

Variables (b : Bot) (stop : nat -> bool).

Lemma output_app es1 es2 : output (es1 ++ es2) = output es1 ++ output es2.
Proof.
  induction es1 as [|e es1 IH]; [reflexivity|].
  destruct e; cbn; now rewrite IH.
Qed.

Lemma handed_off_app es1 es2 :
  handed_off (es1 ++ es2) = handed_off es1 ++ handed_off es2.
Proof.
  induction es1 as [|e es1 IH]; [reflexivity|].
  destruct e; cbn; now rewrite IH.
Qed.

Lemma dispatch_flag_down updates loads p :
  (forall i, shouldWrireNextUpdate b i <> 1) ->
  handed_off (snd (dispatch b loads updates p)) = []
  /\ output (snd (dispatch b loads updates p)) = updates.
Proof.
  intros Hdown. revert loads p.
  induction updates as [|update updates IH]; intros loads p; [now split|].
  cbn [dispatch]. cbv zeta.
  specialize (IH (S loads) (set_LastUpdateID (ID update) p)).
  destruct (dispatch b (S loads) updates _) as [p' es]. cbn [snd] in *.
  pose proof (Hdown loads) as H. apply Z.eqb_neq in H. rewrite H.
  cbn [handed_off output]. destruct IH as [-> ->]. now split.
Qed.

Lemma dispatch_flag_up updates loads p :
  (forall i, shouldWrireNextUpdate b i = 1) ->
  output (snd (dispatch b loads updates p)) = []
  /\ handed_off (snd (dispatch b loads updates p)) = updates.
Proof.
  intros Hup. revert loads p.
  induction updates as [|update updates IH]; intros loads p; [now split|].
  cbn [dispatch]. cbv zeta.
  specialize (IH (S loads) (set_LastUpdateID (ID update) p)).
  destruct (dispatch b (S loads) updates _) as [p' es]. cbn [snd] in *.
  rewrite (Hup loads). cbn [Z.eqb Pos.eqb handed_off output].
  destruct IH as [-> ->]. now split.
Qed.

(** X9: the flag counts as up only when it reads 1.  In a run where
    no load reads 1, whatever else the loads read, nothing is written to
    the hand-off channel and the output channel receives every fetched
    update in order; in a run where every load reads 1 the output channel
    receives nothing and the hand-off channel receives them all. *)
Theorem Poll_hands_off_only_on_one fuel k loads p :
  ((forall i, shouldWrireNextUpdate b i <> 1) ->
   handed_off (events_of (Poll fuel b stop k loads p)) = []
   /\ output (events_of (Poll fuel b stop k loads p))
      = List.concat (fetched (events_of (Poll fuel b stop k loads p))))
  /\ ((forall i, shouldWrireNextUpdate b i = 1) ->
      output (events_of (Poll fuel b stop k loads p)) = []
      /\ handed_off (events_of (Poll fuel b stop k loads p))
         = List.concat (fetched (events_of (Poll fuel b stop k loads p)))).
Proof.
  split; intros Hflag; revert fuel k loads p.
  - apply (Poll_ind b stop
             (fun _ _ _ r =>
                handed_off (events_of r) = []
                /\ output (events_of r) = List.concat (fetched (events_of r)))).
    + now split.
    + now split.
    + intros k loads p err r _ Ef IH.
      rewrite (fetch_event_result _ _ _ Ef). exact IH.
    + intros k loads p updates r _ Ef [IH1 IH2].
      rewrite (fetch_event_result _ _ _ Ef).
      cbn [events_of fst snd handed_off output fetched List.concat].
      rewrite handed_off_app, output_app, fetched_app, dispatch_fetched.
      destruct (dispatch_flag_down updates loads p Hflag) as [-> ->].
      cbn [app]. now rewrite IH1, IH2.
  - apply (Poll_ind b stop
             (fun _ _ _ r =>
                output (events_of r) = []
                /\ handed_off (events_of r)
                   = List.concat (fetched (events_of r)))).
    + now split.
    + now split.
    + intros k loads p err r _ Ef IH.
      rewrite (fetch_event_result _ _ _ Ef). exact IH.
    + intros k loads p updates r _ Ef [IH1 IH2].
      rewrite (fetch_event_result _ _ _ Ef).
      cbn [events_of fst snd handed_off output fetched List.concat].
      rewrite handed_off_app, output_app, fetched_app, dispatch_fetched.
      destruct (dispatch_flag_up updates loads p Hflag) as [-> ->].
      cbn [app]. now rewrite IH1, IH2.
Qed.

End FlagValues.

Lemma Poll_hands_off_only_on_one_witness :
  (forall i, shouldWrireNextUpdate steady_source i <> 1)
  /\ handed_off (events_of
       (LongPoller.Poll 3 steady_source never_stop 0 0 fresh_poller)) = []
  /\ output (events_of
       (LongPoller.Poll 3 steady_source never_stop 0 0 fresh_poller))
     = [update_of 1; update_of 2; update_of 3]
  /\ (forall i, shouldWrireNextUpdate flaky_source i = 1)
  /\ output (events_of
       (LongPoller.Poll 3 flaky_source never_stop 0 0 fresh_poller)) = [].
Proof.
  assert (Hdown : forall i : nat, shouldWrireNextUpdate steady_source i <> 1)
    by (intros i; discriminate).
  assert (Hup : forall i : nat, shouldWrireNextUpdate flaky_source i = 1)
    by reflexivity.
  pose proof (proj1 (Poll_hands_off_only_on_one steady_source never_stop
                       3 0 0 fresh_poller) Hdown) as [H1 H2].
  pose proof (proj2 (Poll_hands_off_only_on_one flaky_source never_stop
                       3 0 0 fresh_poller) Hup) as [H3 _].
  split; [exact Hdown|]. split; [exact H1|].
  split; [rewrite H2; reflexivity|]. split; [exact Hup | exact H3].
Defined.

(** X10: the offset of a fetch is an [int]: it is [LastUpdateID] plus
    one, except where [LastUpdateID] is the largest [int], where the sum
    wraps and the fetch asks for the smallest [int]. *)
Theorem Poll_offset_wraps_at_largest_int :
  forall (b : Bot) (stop : nat -> bool) (fuel k loads : nat) (p : LongPoller.t),
    stop k = false ->
    GoInt.in_range (LongPoller.LastUpdateID p) ->
    exists offset rest,
      offsets (events_of (LongPoller.Poll (S fuel) b stop k loads p))
      = offset :: rest
      /\ GoInt.in_range offset
      /\ (LongPoller.LastUpdateID p < GoInt.max_int ->
          offset = LongPoller.LastUpdateID p + 1)
      /\ (LongPoller.LastUpdateID p = GoInt.max_int ->
          offset = GoInt.min_int).
Proof.
  intros b stop fuel k loads p Es Hp.
  exists (GoInt.add (LongPoller.LastUpdateID p) 1).
  destruct (fetch_result b k p) as [err|updates] eqn:Ef.
  - erewrite Poll_error by eassumption. cbv zeta.
    rewrite (fetch_event_result _ _ _ Ef). cbn [events_of fst snd offsets].
    eexists. split; [reflexivity|]. revert Hp.
    unfold GoInt.in_range, GoInt.add, GoInt.wrap, GoInt.min_int, GoInt.max_int.
    change (2 ^ 63) with 9223372036854775808.
    change (2 ^ 64) with 18446744073709551616.
    intros Hp.
    pose proof (Z.mod_pos_bound
                  (LongPoller.LastUpdateID p + 1 + 9223372036854775808)
                  18446744073709551616 eq_refl) as Hm.
    split; [lia|]. split.
    + intros Hlt. rewrite Z.mod_small; lia.
    + intros ->. reflexivity.
  - erewrite Poll_batch by eassumption. cbv zeta.
    rewrite (fetch_event_result _ _ _ Ef). cbn [events_of fst snd offsets].
    eexists. split; [reflexivity|]. revert Hp.
    unfold GoInt.in_range, GoInt.add, GoInt.wrap, GoInt.min_int, GoInt.max_int.
    change (2 ^ 63) with 9223372036854775808.
    change (2 ^ 64) with 18446744073709551616.
    intros Hp.
    pose proof (Z.mod_pos_bound
                  (LongPoller.LastUpdateID p + 1 + 9223372036854775808)
                  18446744073709551616 eq_refl) as Hm.
    split; [lia|]. split.
    + intros Hlt. rewrite Z.mod_small; lia.
    + intros ->. reflexivity.
Qed.

Lemma Poll_offset_wraps_at_largest_int_witness :
  never_stop 0%nat = false
  /\ GoInt.in_range GoInt.max_int
  /\ exists offset rest,
       offsets (events_of
         (LongPoller.Poll 1 steady_source never_stop 0 0
            (LongPoller.mk 100 10 GoInt.max_int EmptyString)))
       = offset :: rest
       /\ offset = GoInt.min_int.
Proof.
  assert (Hr : GoInt.in_range GoInt.max_int).
  { unfold GoInt.in_range, GoInt.min_int, GoInt.max_int. lia. }
  destruct (Poll_offset_wraps_at_largest_int steady_source never_stop 0 0 0
              (LongPoller.mk 100 10 GoInt.max_int EmptyString) eq_refl Hr)
    as (offset & rest & E & _ & _ & Hwrap).
  split; [reflexivity|]. split; [exact Hr|].
  exists offset, rest. split; [exact E | exact (Hwrap eq_refl)].
Defined.

(** ** MiddlewarePoller *)

Section RelayBound.

Import MiddlewarePoller.
Import Trace.

Variable p : t.

Lemma middle_bounded tr s :
  steps (step p) (start p) tr s ->
  Z.of_nat (List.length (middle s)) <= relay_capacity p.
Proof.
  induction 1 as [|tr s l s' R IH Hstep].
  - cbn. pose proof (relay_capacity_pos p). lia.
  - inversion Hstep; subst; unfold with_inner, with_loop; cbn [middle];
      try exact IH.
    + rewrite length_app. cbn [List.length]. lia.
    + match goal with H : middle s = _ |- _ => rewrite H in IH end.
      cbn [List.length] in IH. lia.
Qed.

Lemma held_unjudged_length pc : (List.length (held_unjudged pc) <= 1)%nat.
Proof. destruct pc; cbn; lia. Qed.

(** X11: [middle] never holds more updates than the capacity it was
    made with, which is [Capacity], or 1 where [Capacity] is below 1; so
    the wrapped poller is never more than this capacity plus one update
    ahead of the calls of the filter. *)
Theorem relay_holds_back_the_wrapped_poller tr s :
  steps (step p) (start p) tr s ->
  Z.of_nat (List.length (middle s)) <= relay_capacity p
  /\ Z.of_nat (List.length (emitted tr))
     <= Z.of_nat (List.length (judged tr)) + 1 + relay_capacity p
  /\ 1 <= relay_capacity p
  /\ (1 <= Capacity p -> relay_capacity p = Capacity p).
Proof.
  intros R. pose proof (middle_bounded R) as Hm.
  destruct (relay_accounting R) as (E1 & E2 & _).
  split; [exact Hm|]. split; [|split; [apply relay_capacity_pos|]].
  - rewrite E1, E2, !length_app.
    pose proof (held_unjudged_length (loop s)). lia.
  - intros Hc. unfold relay_capacity.
    destruct (Capacity p <? 1) eqn:E; [|reflexivity].
    apply Z.ltb_lt in E. lia.
Qed.

End RelayBound.

Lemma relay_holds_back_the_wrapped_poller_witness :
  steps (MiddlewarePoller.step relay_batch) (MiddlewarePoller.start relay_batch)
        stop_mid_batch hung_state
  /\ Z.of_nat (List.length (MiddlewarePoller.middle hung_state))
     <= MiddlewarePoller.relay_capacity relay_batch
  /\ Z.of_nat (List.length (Trace.emitted stop_mid_batch))
     <= Z.of_nat (List.length (Trace.judged stop_mid_batch)) + 1
        + MiddlewarePoller.relay_capacity relay_batch.
Proof.
  assert (R : steps (MiddlewarePoller.step relay_batch)
                    (MiddlewarePoller.start relay_batch)
                    stop_mid_batch hung_state).
  { unfold stop_mid_batch.
    repeat (eapply steps_cons;
            [ solve [ econstructor; try reflexivity; try constructor ] | ]).
    apply steps_nil. }
  destruct (relay_holds_back_the_wrapped_poller R) as (H1 & H2 & _).
  split; [exact R|]. split; [exact H1 | exact H2].
Defined.

(** X12: a middleware made by [NewMiddlewarePoller] relays through a
    channel of capacity 1: at no moment does [middle] hold more than one
    update. *)
Theorem NewMiddlewarePoller_buffers_one_update :
  forall (original : Poller.t) (filter : Update -> bool * Update) tr s,
    steps (MiddlewarePoller.step
             (MiddlewarePoller.NewMiddlewarePoller original filter))
          (MiddlewarePoller.start
             (MiddlewarePoller.NewMiddlewarePoller original filter))
          tr s ->
    (List.length (MiddlewarePoller.middle s) <= 1)%nat.
Proof.
  intros original filter tr s R.
  pose proof (middle_bounded R) as H.
  change (MiddlewarePoller.relay_capacity
            (MiddlewarePoller.NewMiddlewarePoller original filter))
    with 1 in H.
  lia.
Qed.

Lemma stop_mid_batch_runs :
  steps (MiddlewarePoller.step relay_batch) (MiddlewarePoller.start relay_batch)
        stop_mid_batch hung_state.
Proof.
  unfold stop_mid_batch.
  repeat (eapply steps_cons;
          [ solve [ econstructor; try reflexivity; try constructor ] | ]).
  apply steps_nil.
Qed.

Lemma NewMiddlewarePoller_buffers_one_update_witness :
  steps (MiddlewarePoller.step
           (MiddlewarePoller.NewMiddlewarePoller
              (batching [update_of 1; update_of 2]) accept_all))
        (MiddlewarePoller.start
           (MiddlewarePoller.NewMiddlewarePoller
              (batching [update_of 1; update_of 2]) accept_all))
        stop_mid_batch hung_state
  /\ (List.length (MiddlewarePoller.middle hung_state) <= 1)%nat.
Proof.
  split; [exact stop_mid_batch_runs|].
  exact (NewMiddlewarePoller_buffers_one_update stop_mid_batch_runs).
Defined.

Section Shutdown.

Import MiddlewarePoller.
Import Trace.

Variable p : t.

Lemma stages_never_go_back s l s' :
  step p s l s' ->
  (loop_stage (loop s) <= loop_stage (loop s'))%nat
  /\ (go_stage (goroutine s) <= go_stage (goroutine s'))%nat.
Proof.
  intros Hstep. inversion Hstep; subst; unfold with_inner, with_loop;
    cbn [loop goroutine];
    repeat match goal with
           | H : loop _ = _ |- _ => rewrite H
           | H : goroutine _ = _ |- _ => rewrite H
           end;
    cbn; lia.
Qed.

Lemma stages_over_a_run s tr s' :
  steps (step p) s tr s' ->
  (loop_stage (loop s) <= loop_stage (loop s'))%nat
  /\ (go_stage (goroutine s) <= go_stage (goroutine s'))%nat.
Proof.
  induction 1 as [|tr s1 l s2 R [IH1 IH2] Hstep]; [lia|].
  destruct (stages_never_go_back Hstep). lia.
Qed.

(** X13: each of the receive from [stop], [close(stopPoller)],
    [close(stopConfirm)], the return of the wrapped [Poll] and the return
    of [Poll] happens at most once in a run; no channel is closed
    twice. *)
Theorem shutdown_steps_happen_once tr s :
  steps (step p) (start p) tr s ->
  forall l t1 t2, once_only l -> tr = t1 ++ l :: t2 -> ~ In l t2.
Proof.
  intros R l t1 t2 Hl -> Hin.
  apply in_split in Hin as [t2a [t2b ->]].
  apply steps_app_inv in R as [s1 [_ R]].
  apply steps_cons_inv in R as [s1' [Hfirst R]].
  apply steps_app_inv in R as [s2 [Rmid R]].
  apply steps_cons_inv in R as [s2' [Hsecond _]].
  destruct (stages_over_a_run Rmid) as [Hl2 Hg2].
  destruct Hl as [-> | [-> | [-> | [-> | ->]]]];
    inversion Hfirst; inversion Hsecond; subst;
    unfold with_loop, with_inner in *; cbn [loop goroutine] in *;
    repeat match goal with
           | H : loop ?x = _, H' : context [loop ?x] |- _ =>
               rewrite H in H'
           | H : goroutine ?x = _, H' : context [goroutine ?x] |- _ =>
               rewrite H in H'
           end;
    cbn in *; lia.
Qed.

End Shutdown.

Lemma shutdown_steps_happen_once_witness :
  steps (MiddlewarePoller.step relay_one) (MiddlewarePoller.start relay_one)
        relay_and_stop stopped_state
  /\ once_only MiddlewarePoller.CloseStopPoller
  /\ ~ In MiddlewarePoller.CloseStopPoller
         [ MiddlewarePoller.Inner Poller.Stopped;
           MiddlewarePoller.Inner Poller.Return;
           MiddlewarePoller.CloseConfirm;
           MiddlewarePoller.RecvConfirm;
           MiddlewarePoller.Ret ].
Proof.
  assert (Honce : once_only MiddlewarePoller.CloseStopPoller).
  { right. now left. }
  split; [exact relay_and_stop_runs|]. split; [exact Honce|].
  exact (@shutdown_steps_happen_once relay_one _ _ relay_and_stop_runs
           MiddlewarePoller.CloseStopPoller
           [ MiddlewarePoller.Inner (Poller.Emit (update_of 1));
             MiddlewarePoller.RecvMiddle (update_of 1);
             MiddlewarePoller.CallFilter (update_of 1) true (update_of 1);
             MiddlewarePoller.Forward (update_of 1);
             MiddlewarePoller.OuterStop ]
           _ Honce eq_refl).
Defined.

Section AfterStop.

Import MiddlewarePoller.
Import Trace.

Variable p : t.

Lemma stopping_loop_relays_nothing s tr s' :
  steps (step p) s tr s' ->
  stopping (loop s) ->
  stopping (loop s')
  /\ relayed tr = [] /\ judged tr = [] /\ forwarded tr = [].
Proof.
  induction 1 as [|tr s1 l s2 R IH Hstep]; intros Hs; [now repeat split|].
  destruct (IH Hs) as (Hs1 & E1 & E2 & E3).
  rewrite relayed_app, judged_app, forwarded_app, E1, E2, E3.
  unfold stopping in *.
  inversion Hstep; subst; unfold with_inner, with_loop; cbn;
    repeat split; try assumption; try tauto;
    exfalso; destruct Hs1 as [H' | [H' | [H' | H']]]; congruence.
Qed.

(** X14: once the loop has received from [stop] it takes no further
    update from [middle], calls the filter no more and sends no more on
    [dest]: what reached [dest] by then is all that ever does, and what
    [middle] holds or receives from then on is dropped. *)
Theorem nothing_is_relayed_after_stop tr s :
  steps (step p) (start p) tr s ->
  forall t1 t2,
    tr = t1 ++ OuterStop :: t2 ->
    relayed t2 = [] /\ judged t2 = [] /\ forwarded t2 = []
    /\ forwarded tr = forwarded t1.
Proof.
  intros R t1 t2 ->.
  pose proof R as R'.
  apply steps_app_inv in R' as [s1 [_ R']].
  apply steps_cons_inv in R' as [s1' [Hstop R']].
  assert (Hs : stopping (loop s1')).
  { inversion Hstop; subst. now left. }
  destruct (stopping_loop_relays_nothing R' Hs) as (_ & E1 & E2 & E3).
  repeat split; try assumption.
  rewrite forwarded_app. cbn [forwarded]. now rewrite E3, app_nil_r.
Qed.

(** X15: while the loop waits for the confirmation, with [middle] full
    and the wrapped poller at a point where all it can do is send its next
    update, neither goroutine can make a step: [Poll] never returns. *)
Theorem Poll_hangs_when_stopped_with_full_relay tr s :
  steps (step p) (start p) tr s ->
  loop s = AwaitingConfirm ->
  goroutine s = InPoll ->
  relay_capacity p <= Z.of_nat (List.length (middle s)) ->
  (forall a i',
      Poller.step (Poller p) (inner s) a i' -> exists upd, a = Poller.Emit upd) ->
  (forall l s', ~ step p s l s')
  /\ (forall tr' s', steps (step p) s tr' s' -> tr' = [] /\ s' = s).
Proof.
  intros R Hloop Hgo Hfull Hinner.
  assert (Hstuck : forall l s', ~ step p s l s').
  { intros l s' Hstep.
    destruct (handshake_invariant R) as (_ & _ & _ & _ & _ & I6 & _).
    inversion Hstep; subst;
      try congruence;
      try (match goal with
           | H : Poller.step _ _ _ _ |- _ =>
               destruct (Hinner _ _ H) as [upd' Ha]; try discriminate Ha
           end).
    - lia.
    - match goal with
      | H : stopConfirm s = true |- _ => destruct (I6 H); congruence
      end. }
  split; [exact Hstuck|].
  intros tr' s' R'. destruct tr' as [|l tr'].
  - inversion R' as [E | tr0 ? ? ? ? ? E]; subst; [now split|].
    now destruct tr0.
  - apply steps_cons_inv in R' as [s1 [Hl _]]. now apply Hstuck in Hl.
Qed.

End AfterStop.

Lemma Poll_hangs_when_stopped_with_full_relay_witness :
  steps (MiddlewarePoller.step relay_batch) (MiddlewarePoller.start relay_batch)
        stop_mid_batch hung_state
  /\ MiddlewarePoller.loop hung_state = MiddlewarePoller.AwaitingConfirm
  /\ MiddlewarePoller.goroutine hung_state = MiddlewarePoller.InPoll
  /\ MiddlewarePoller.relay_capacity relay_batch
     <= Z.of_nat (List.length (MiddlewarePoller.middle hung_state))
  /\ (forall a i',
        Poller.step (MiddlewarePoller.Poller relay_batch)
          (MiddlewarePoller.inner hung_state) a i' ->
        exists upd, a = Poller.Emit upd)
  /\ forall l s', ~ MiddlewarePoller.step relay_batch hung_state l s'.
Proof.
  assert (Hcap : MiddlewarePoller.relay_capacity relay_batch
                 <= Z.of_nat (List.length (MiddlewarePoller.middle hung_state))).
  { cbn. lia. }
  assert (Hinner : forall a i',
             Poller.step (MiddlewarePoller.Poller relay_batch)
               (MiddlewarePoller.inner hung_state) a i' ->
             exists upd, a = Poller.Emit upd).
  { intros a i' Hstep. inversion Hstep; subst. now eexists. }
  split; [exact stop_mid_batch_runs|]. split; [reflexivity|].
  split; [reflexivity|]. split; [exact Hcap|]. split; [exact Hinner|].
  exact (proj1 (Poll_hangs_when_stopped_with_full_relay stop_mid_batch_runs
                  eq_refl eq_refl Hcap Hinner)).
Defined.

Lemma nothing_is_relayed_after_stop_witness :
  steps (MiddlewarePoller.step relay_batch) (MiddlewarePoller.start relay_batch)
        stop_mid_batch hung_state
  /\ Trace.emitted stop_mid_batch = [update_of 1]
  /\ Trace.forwarded stop_mid_batch = [].
Proof.
  split; [exact stop_mid_batch_runs|]. split; [reflexivity|].
  destruct (@nothing_is_relayed_after_stop relay_batch _ _ stop_mid_batch_runs
              [MiddlewarePoller.Inner (Poller.Emit (update_of 1))]
              [MiddlewarePoller.CloseStopPoller] eq_refl)
    as (_ & _ & _ & E).
  exact E.
Defined.

Section Provenance.

Import MiddlewarePoller.
Import Trace.

Variable p : t.

Lemma sieve_provenance filter (l : list Update) :
  Forall (fun upd' =>
            exists upd, In upd l /\ filter upd = (true, upd'))
         (sieve filter l)
  /\ (List.length (sieve filter l) <= List.length l)%nat.
Proof.
  induction l as [|x l [IH1 IH2]]; [split; [constructor | cbn; lia]|].
  cbn [sieve]. destruct (filter x) as [ok x'] eqn:E. cbn [fst snd].
  assert (Hrest : Forall (fun upd' =>
                            exists upd, In upd (x :: l)
                                        /\ filter upd = (true, upd'))
                         (sieve filter l)).
  { eapply Forall_impl; [|exact IH1].
    intros a (u & Hin & Hu). exists u. split; [now right | exact Hu]. }
  destruct ok; cbn [List.length]; split; try lia; try exact Hrest.
  constructor; [|exact Hrest]. exists x. split; [now left | exact E].
Qed.

(** X16: the middleware makes up no update: every update sent on [dest]
    is what the filter, returning true, left behind of an update the
    wrapped poller sent, and no more updates are sent on [dest] than the
    wrapped poller sent. *)
Theorem forwarded_updates_come_from_the_wrapped_poller tr s :
  steps (step p) (start p) tr s ->
  Forall (fun upd' =>
            exists upd, In upd (emitted tr) /\ Filter p upd = (true, upd'))
         (forwarded tr)
  /\ (List.length (forwarded tr) <= List.length (emitted tr))%nat.
Proof.
  intros R. destruct (relay_accounting R) as (E1 & E2 & E3 & _).
  destruct (sieve_provenance (Filter p) (judged tr)) as [H1 H2].
  rewrite E3 in H1, H2. apply Forall_app in H1 as [H1 _].
  split.
  - eapply Forall_impl; [|exact H1].
    intros a (u & Hin & Hu). exists u. split; [|exact Hu].
    rewrite E1, E2. apply in_or_app. left. apply in_or_app. now left.
  - rewrite E1, E2. rewrite !length_app in *. lia.
Qed.

(** X17: [Poll] leaves its loop only for the stop signal.  As long as
    the loop has not received from [stop] it is at its select or busy with
    an update, whatever the wrapped poller has done, its own return
    included; so [Poll] returns, and the wrapped poller sees a stop
    request, only after the receive from [stop]. *)
Theorem Poll_stays_in_its_loop_until_stop tr s :
  steps (step p) (start p) tr s ->
  (~ In OuterStop tr ->
   loop s = Select
   \/ (exists upd, loop s = Filtering upd)
   \/ (exists upd, loop s = Sending upd))
  /\ precedes OuterStop Ret tr
  /\ precedes OuterStop (Inner Poller.Stopped) tr.
Proof.
  intros R.
  pose proof (stop_before_close_request R) as H1.
  pose proof (close_request_before_confirmed R) as H2.
  pose proof (confirmed_before_return R) as H3.
  pose proof (close_request_before_inner_stopped R) as H4.
  split; [|split].
  - intros Hno.
    destruct (handshake_invariant R) as (I1 & I2 & I3 & I4 & _).
    assert (Hclose : ~ In CloseStopPoller tr).
    { intros Hin. apply in_split in Hin as [t1 [t2 E]].
      apply Hno. rewrite E. apply in_or_app. left. exact (H1 _ _ E). }
    assert (Hconf : ~ In RecvConfirm tr).
    { intros Hin. apply in_split in Hin as [t1 [t2 E]].
      apply Hclose. rewrite E. apply in_or_app. left. exact (H2 _ _ E). }
    assert (Hret : ~ In Ret tr).
    { intros Hin. apply in_split in Hin as [t1 [t2 E]].
      apply Hconf. rewrite E. apply in_or_app. left. exact (H3 _ _ E). }
    destruct (loop s) as [|upd|upd| | | |];
      [ now left | right; left; now exists upd | right; right; now exists upd
      | exfalso; auto .. ].
  - eapply precedes_trans; [|exact H3].
    eapply precedes_trans; [exact H1 | exact H2].
  - eapply precedes_trans; [exact H1 | exact H4].
Qed.

End Provenance.

Lemma forwarded_updates_come_from_the_wrapped_poller_witness :
  steps (MiddlewarePoller.step rewrite_one) (MiddlewarePoller.start rewrite_one)
        (taken_and_judged true (mkUpdate 0 EmptyString)
           ++ [MiddlewarePoller.Forward (mkUpdate 0 EmptyString)])
        (judged_state MiddlewarePoller.Select)
  /\ Forall (fun upd' =>
               exists upd,
                 In upd [update_of 1]
                 /\ MiddlewarePoller.Filter rewrite_one upd = (true, upd'))
            [mkUpdate 0 EmptyString].
Proof.
  assert (R : steps (MiddlewarePoller.step rewrite_one)
                (MiddlewarePoller.start rewrite_one)
                (taken_and_judged true (mkUpdate 0 EmptyString)
                   ++ [MiddlewarePoller.Forward (mkUpdate 0 EmptyString)])
                (judged_state MiddlewarePoller.Select)).
  { econstructor; [exact rewrite_one_runs|].
    exact (MiddlewarePoller.step_forward rewrite_one
             (judged_state (MiddlewarePoller.Sending (mkUpdate 0 EmptyString)))
             eq_refl). }
  split; [exact R|].
  exact (proj1 (forwarded_updates_come_from_the_wrapped_poller R)).
Defined.

Lemma Poll_stays_in_its_loop_until_stop_witness :
  steps (MiddlewarePoller.step rewrite_one) (MiddlewarePoller.start rewrite_one)
        (taken_and_judged true (mkUpdate 0 EmptyString))
        (judged_state (MiddlewarePoller.Sending (mkUpdate 0 EmptyString)))
  /\ ~ In MiddlewarePoller.OuterStop
         (taken_and_judged true (mkUpdate 0 EmptyString))
  /\ (MiddlewarePoller.loop
        (judged_state (MiddlewarePoller.Sending (mkUpdate 0 EmptyString)))
      = MiddlewarePoller.Select
      \/ (exists upd,
             MiddlewarePoller.loop
               (judged_state (MiddlewarePoller.Sending (mkUpdate 0 EmptyString)))
             = MiddlewarePoller.Filtering upd)
      \/ (exists upd,
             MiddlewarePoller.loop
               (judged_state (MiddlewarePoller.Sending (mkUpdate 0 EmptyString)))
             = MiddlewarePoller.Sending upd)).
Proof.
  assert (Hno : ~ In MiddlewarePoller.OuterStop
                  (taken_and_judged true (mkUpdate 0 EmptyString))).
  { intros [H | [H | [H | []]]]; discriminate H. }
  split; [exact rewrite_one_runs|]. split; [exact Hno|].
  exact (proj1 (Poll_stays_in_its_loop_until_stop rewrite_one_runs) Hno).
Defined.
